(** * Constellation images from I/Q samples: [imgConstellation/imgGen.py]

    A shallow embedding of the two renderers of [imgGen.py]:

    - [grayscale] (Section III-B): bins the samples into a [uint16] count
      grid and rescales it to an 8-bit raster;
    - [enhancedGrayscale] (Section III-C): accumulates, for every pixel and
      every sample, [power * exp(-decay * distance)] and rescales.

    The program text is written once, over an interface [Float64] of the
    float64 operations numpy applies.  Two interpretations are given:

    - [f64]: IEEE 754 binary64, through Rocq's primitive floats.  This is the
      arithmetic the code runs on; every concrete evaluation in this file
      uses it.
    - [real_arith]: the real numbers, i.e. the same program with every
      rounding removed.  It is used only to show that the exact-arithmetic
      laws some statements assume are satisfiable.

    Python exceptions are values of [exn]; a renderer returns [Ok raster]
    when [img.save] is reached with that raster and [Raised e] otherwise.
    numpy floating-point warnings (division by zero, invalid value) are not
    exceptions and are not modelled. *)

From Stdlib Require Import ZArith List Bool Lia Permutation.
From Stdlib Require Import Floats Uint63.
From Stdlib Require Import Reals Lra.
Import ListNotations.

Local Open Scope Z_scope.

(** ** Python outcomes *)

Inductive exn : Set :=
| IndexError   (* an index outside [-n, n) on an axis of size n *)
| ValueError.  (* np.zeros with a negative dimension, np.max of an empty array *)

Inductive outcome (A : Type) : Type :=
| Ok (a : A)
| Raised (e : exn).

Arguments Ok {A} a.
Arguments Raised {A} e.

Definition bind {A B : Type} (m : outcome A) (k : A -> outcome B) : outcome B :=
  match m with
  | Ok a => k a
  | Raised e => Raised e
  end.

Notation "x <- m ;; k" := (bind m (fun x => k))
  (at level 61, m at next level, right associativity).

(** ** The float64 operations the program uses *)

Class Float64 (F : Type) : Type := {
  of_int : Z -> F;            (* a Python int or an integer array element as float64 *)
  half : F;                   (* the literal 0.5 *)
  fadd : F -> F -> F;
  fsub : F -> F -> F;
  fmul : F -> F -> F;
  fdiv : F -> F -> F;
  fneg : F -> F;
  fabs : F -> F;              (* np.abs *)
  fsqrt : F -> F;             (* np.sqrt *)
  fexp : F -> F;              (* np.exp *)
  ffloor : F -> F;            (* np.floor *)
  fge : F -> F -> bool;       (* x >= y *)
  fmaximum : F -> F -> F;     (* np.maximum, the step of np.max *)
  to_int64 : F -> Z;          (* .astype(int) *)
  to_uint8 : F -> Z           (* np.copyto(uint8 array, _, casting='unsafe') *)
}.

Declare Scope f64_scope.
Delimit Scope f64_scope with f64.
Notation "x + y" := (fadd x y) : f64_scope.
Notation "x - y" := (fsub x y) : f64_scope.
Notation "x * y" := (fmul x y) : f64_scope.
Notation "x / y" := (fdiv x y) : f64_scope.
Notation "- x" := (fneg x) : f64_scope.
Notation "x >=? y" := (fge x y) (at level 70) : f64_scope.

(** ** numpy arrays as lists *)

(** [np.delete(arr, mask)] with a boolean mask of the array's length: the
    elements at the [True] positions are removed, the others keep their
    order. *)
Fixpoint np_delete {A : Type} (arr : list A) (mask : list bool) : list A :=
  match arr, mask with
  | a :: arr', b :: mask' =>
      if b then np_delete arr' mask' else a :: np_delete arr' mask'
  | _, _ => arr
  end.

(** A two-dimensional array of shape [(W, H)] is a list of [W] rows of [H]
    cells; [grid[x, y]] is cell [y] of row [x]. *)
Definition np_zeros {A : Type} (zero : A) (W H : Z) : list (list A) :=
  repeat (repeat zero (Z.to_nat H)) (Z.to_nat W).

Fixpoint update {A : Type} (l : list A) (k : nat) (f : A -> A) : list A :=
  match l, k with
  | [], _ => []
  | a :: l', O => f a :: l'
  | a :: l', S k' => a :: update l' k' f
  end.

Definition grid_update {A : Type} (grid : list (list A)) (x y : nat) (f : A -> A)
  : list (list A) :=
  update grid x (fun row => update row y f).

Definition grid_get {A : Type} (d : A) (grid : list (list A)) (x y : nat) : A :=
  nth y (nth x grid []) d.

(** Python indexing on an axis of size [n]: [0 <= i < n] is position [i],
    [-n <= i < 0] is position [i + n], anything else raises IndexError. *)
Definition py_index (n i : Z) : outcome nat :=
  if (0 <=? i) && (i <? n) then Ok (Z.to_nat i)
  else if (- n <=? i) && (i <? 0) then Ok (Z.to_nat (i + n))
  else Raised IndexError.

(** [uint16] addition of 1. *)
Definition uint16_incr (c : Z) : Z := (c + 1) mod 65536.

(** [np.max] of an integer grid. *)
Definition np_max_int (grid : list (list Z)) : outcome Z :=
  match concat grid with
  | [] => Raised ValueError
  | c :: cs => Ok (fold_left Z.max cs c)
  end.

Section Render.

Context {F : Type} {A : Float64 F}.

Local Open Scope f64_scope.

(** [np.max] of a float64 grid. *)
Definition np_max (grid : list (list F)) : outcome F :=
  match concat grid with
  | [] => Raised ValueError
  | c :: cs => Ok (fold_left fmaximum cs c)
  end.

(** *** The coordinate mapping as the specification words it *)

(** Section 4.1: a sample [(i, q)] goes to the continuous pixel-plane point
    [(x, y)] with [y = (i + |i_min|) * H / (i_max - i_min)] and
    [x = -(q - q_max) * W / (q_max - q_min)]. *)
Definition pixel_coord (i_range q_range : F * F) (img_resolution : Z * Z)
  (sample : F * F) : F * F :=
  let '(i, q) := sample in
  let '(i_min, i_max) := i_range in
  let '(q_min, q_max) := q_range in
  let '(W, H) := img_resolution in
  ((- (q - q_max)) * of_int W / (q_max - q_min),
   (i + fabs i_min) * of_int H / (i_max - i_min)).

(** *** [grayscale], lines 23-61 *)

(** Lines 23-27: the two coordinate arrays [(x_samples, y_samples)]. *)
Definition grayscale_transform (symbols : list (F * F)) (i_range q_range : F * F)
  (img_resolution : Z * Z) : list F * list F :=
  let i_samples := map fst symbols in
  let q_samples := map snd symbols in
  let y_samples :=
    map (fun i => (i + fabs (fst i_range)) * of_int (snd img_resolution)
                  / (snd i_range - fst i_range)) i_samples in
  let x_samples :=
    map (fun q => (- (q - snd q_range)) * of_int (fst img_resolution)
                  / (snd q_range - fst q_range)) q_samples in
  (x_samples, y_samples).

(** Lines 29-42: floor, the two clipping passes, the cast to int. *)
Definition grayscale_clip (img_resolution : Z * Z) (xy : list F * list F)
  : list Z * list Z :=
  let '(x_samples, y_samples) := xy in
  let y_samples := map ffloor y_samples in
  let x_samples := map ffloor x_samples in
  let x_mask := map (fun x => x >=? of_int (fst img_resolution)) x_samples in
  let x_samples := np_delete x_samples x_mask in
  let y_samples := np_delete y_samples x_mask in
  let y_mask := map (fun y => y >=? of_int (snd img_resolution)) y_samples in
  let x_samples := np_delete x_samples y_mask in
  let y_samples := np_delete y_samples y_mask in
  (map to_int64 x_samples, map to_int64 y_samples).

(** Lines 48-49: [for i in range(samples_num): bin_grid[x[i], y[i]] += 1]. *)
Fixpoint bin_samples (img_resolution : Z * Z) (x_samples y_samples : list Z)
  (bin_grid : list (list Z)) : outcome (list (list Z)) :=
  match x_samples, y_samples with
  | x :: x_samples', y :: y_samples' =>
      xi <- py_index (fst img_resolution) x ;;
      yi <- py_index (snd img_resolution) y ;;
      bin_samples img_resolution x_samples' y_samples'
        (grid_update bin_grid xi yi uint16_incr)
  | _, _ => Ok bin_grid
  end.

(** Lines 44-49: the count grid. *)
Definition bin_grid (img_resolution : Z * Z) (idx : list Z * list Z)
  : outcome (list (list Z)) :=
  let '(W, H) := img_resolution in
  if (W <? 0)%Z || (H <? 0)%Z then Raised ValueError
  else bin_samples img_resolution (fst idx) (snd idx) (np_zeros 0%Z W H).

(** Lines 52-55: normalisation to 255 and the unsafe copy into [uint8]. *)
Definition grayscale_img_grid (bin_grid : list (list Z)) : outcome (list (list Z)) :=
  max_val <- np_max_int bin_grid ;;
  let normalized_grid :=
    map (map (fun c => of_int c / of_int max_val * of_int 255)) bin_grid in
  Ok (map (map to_uint8) normalized_grid).

Definition grayscale (symbols : list (F * F)) (i_range q_range : F * F)
  (img_resolution : Z * Z) : outcome (list (list Z)) :=
  let xy := grayscale_transform symbols i_range q_range img_resolution in
  let idx := grayscale_clip img_resolution xy in
  grid <- bin_grid img_resolution idx ;;
  grayscale_img_grid grid.

(** *** [enhancedGrayscale], lines 79-128 *)

(** Lines 79-83. *)
Definition enhanced_transform (symbols : list (F * F)) (i_range q_range : F * F)
  (img_resolution : Z * Z) : list F * list F :=
  let i_samples := map fst symbols in
  let q_samples := map snd symbols in
  let y_samples :=
    map (fun i => (i + fabs (fst i_range)) * of_int (snd img_resolution)
                  / (snd i_range - fst i_range)) i_samples in
  let x_samples :=
    map (fun q => (- (q - snd q_range)) * of_int (fst img_resolution)
                  / (snd q_range - fst q_range)) q_samples in
  (x_samples, y_samples).

(** Lines 87-93: the two clipping passes, on the continuous coordinates. *)
Definition enhanced_clip (img_resolution : Z * Z) (xy : list F * list F)
  : list F * list F :=
  let '(x_samples, y_samples) := xy in
  let x_mask := map (fun x => x >=? of_int (fst img_resolution)) x_samples in
  let x_samples := np_delete x_samples x_mask in
  let y_samples := np_delete y_samples x_mask in
  let y_mask := map (fun y => y >=? of_int (snd img_resolution)) y_samples in
  let x_samples := np_delete x_samples y_mask in
  let y_samples := np_delete y_samples y_mask in
  (x_samples, y_samples).

(** Lines 101-102: [np.arange(start=0.5, stop=n, step=1)], the pixel centres
    [0.5 + k] for [k = 0 .. n-1], each paired with its index as [enumerate]
    does.  They are float32 in the source; [0.5 + k] is exact in float32 for
    [k < 2^23], and float32 operands are widened to float64 at line 111. *)
Definition centroids (n : Z) : list (nat * F) :=
  map (fun k => (k, half + of_int (Z.of_nat k))) (seq 0 (Z.to_nat n)).

(** Lines 110-111; [** 2] is the correctly rounded square. *)
Definition centroid_distance (x_centroid y_centroid x_sample y_sample : F) : F :=
  fsqrt ((x_centroid - x_sample) * (x_centroid - x_sample)
         + (y_centroid - y_sample) * (y_centroid - y_sample)).

(** Lines 108-113: the loop over the samples for one pixel. *)
Fixpoint sample_loop (power decay : F) (x : nat) (x_centroid : F) (y : nat)
  (y_centroid : F) (x_samples y_samples : list F) (power_grid : list (list F))
  : list (list F) :=
  match x_samples, y_samples with
  | xs :: x_samples', ys :: y_samples' =>
      sample_loop power decay x x_centroid y y_centroid x_samples' y_samples'
        (grid_update power_grid x y
           (fun c => c + power * fexp (- decay
                                       * centroid_distance x_centroid y_centroid xs ys)))
  | _, _ => power_grid
  end.

(** Lines 106-113: the loop over the pixels of one row. *)
Definition row_loop (power decay : F) (x : nat) (x_centroid : F)
  (y_centroids : list (nat * F)) (x_samples y_samples : list F)
  (power_grid : list (list F)) : list (list F) :=
  fold_left
    (fun grid yc =>
       sample_loop power decay x x_centroid (fst yc) (snd yc) x_samples y_samples grid)
    y_centroids power_grid.

(** Lines 98-113: the power grid. *)
Definition power_grid (img_resolution : Z * Z) (power decay : F) (xy : list F * list F)
  : outcome (list (list F)) :=
  let '(W, H) := img_resolution in
  if (W <? 0)%Z || (H <? 0)%Z then Raised ValueError
  else
    let x_centroids := centroids W in
    let y_centroids := centroids H in
    Ok (fold_left
          (fun grid xc =>
             row_loop power decay (fst xc) (snd xc) y_centroids (fst xy) (snd xy) grid)
          x_centroids (np_zeros (of_int 0) W H)).

(** Lines 117-122. *)
Definition enhanced_img_grid (power_grid : list (list F)) : outcome (list (list Z)) :=
  max_val <- np_max power_grid ;;
  let normalized_grid := map (map (fun c => c / max_val * of_int 255)) power_grid in
  let normalized_grid := map (map ffloor) normalized_grid in
  Ok (map (map to_uint8) normalized_grid).

Definition enhancedGrayscale (symbols : list (F * F)) (i_range q_range : F * F)
  (img_resolution : Z * Z) (power decay : F) : outcome (list (list Z)) :=
  let xy := enhanced_transform symbols i_range q_range img_resolution in
  let kept := enhanced_clip img_resolution xy in
  grid <- power_grid img_resolution power decay kept ;;
  enhanced_img_grid grid.

End Render.

(** ** IEEE 754 binary64: the arithmetic the program runs on *)

(** A Python int as float64.  [of_uint63] rounds to nearest; the conversion is
    exact for [|z| < 2^53], and this definition covers [|z| < 2^63]. *)
Definition f64_of_int (z : Z) : float :=
  if (z <? 0)%Z then PrimFloat.opp (PrimFloat.of_uint63 (Uint63.of_Z (- z)))
  else PrimFloat.of_uint63 (Uint63.of_Z z).

(** [np.floor]: NaN, the infinities, the zeros and every float with a
    non-negative exponent are their own floor; otherwise the float is
    [(-1)^s * m * 2^e] with [e < 0], and its floor is the integer quotient. *)
Definition f64_floor (x : float) : float :=
  match Prim2SF x with
  | S754_finite s m e =>
      if (0 <=? e)%Z then x
      else
        let z := (cond_Zopp s (Zpos m) / 2 ^ (- e))%Z in
        if (z =? 0)%Z then PrimFloat.zero else f64_of_int z
  | _ => x
  end.

(** [x >= y]: false as soon as one side is NaN. *)
Definition f64_ge (x y : float) : bool := PrimFloat.leb y x.

(** [np.maximum(a, b)] is [a] when [a >= b] or [a] is NaN, else [b]; a NaN on
    either side is propagated. *)
Definition f64_maximum (a b : float) : float :=
  if PrimFloat.leb b a || PrimFloat.is_nan a then a else b.

(** The integer a float truncates to (rounding toward zero), when it has
    one. *)
Definition f64_trunc (x : float) : option Z :=
  match Prim2SF x with
  | S754_zero _ => Some 0%Z
  | S754_finite s m e =>
      Some (Z.quot (cond_Zopp s (Zpos m) * 2 ^ Z.max e 0) (2 ^ Z.max (- e) 0))
  | _ => None
  end.

(** C leaves a float-to-integer conversion undefined when the truncated value
    does not fit the target type (NaN and the infinities included); numpy
    performs it all the same and returns what the machine does.  That result
    is a parameter of the model. *)
Record cast_policy : Type := {
  invalid_int64 : float -> Z;
  invalid_uint8 : float -> Z
}.

Definition f64_to_int64 (pol : cast_policy) (x : float) : Z :=
  match f64_trunc x with
  | Some z =>
      if (- 2 ^ 63 <=? z)%Z && (z <? 2 ^ 63)%Z then z else invalid_int64 pol x
  | None => invalid_int64 pol x
  end.

Definition f64_to_uint8 (pol : cast_policy) (x : float) : Z :=
  match f64_trunc x with
  | Some z =>
      if (0 <=? z)%Z && (z <=? 255)%Z then z else (invalid_uint8 pol x mod 256)%Z
  | None => (invalid_uint8 pol x mod 256)%Z
  end.

(** x86-64: [cvttsd2si] returns the "integer indefinite" value, [-2^63] for a
    64-bit target and [-2^31] for a 32-bit one; a [uint8] is the low byte of
    the 32-bit conversion. *)
Definition x86_64 : cast_policy := {|
  invalid_int64 := fun _ => (- 2 ^ 63)%Z;
  invalid_uint8 := fun x =>
    match f64_trunc x with
    | Some z => if (- 2 ^ 31 <=? z)%Z && (z <? 2 ^ 31)%Z then z else (- 2 ^ 31)%Z
    | None => (- 2 ^ 31)%Z
    end
|}.

(** [np.exp] is numpy's, not the repository's: [f64] takes it as a
    parameter. *)
Definition f64 (exp : float -> float) (pol : cast_policy) : Float64 float := {|
  of_int := f64_of_int;
  half := 0.5%float;
  fadd := PrimFloat.add;
  fsub := PrimFloat.sub;
  fmul := PrimFloat.mul;
  fdiv := PrimFloat.div;
  fneg := PrimFloat.opp;
  fabs := PrimFloat.abs;
  fsqrt := PrimFloat.sqrt;
  fexp := exp;
  ffloor := f64_floor;
  fge := f64_ge;
  fmaximum := f64_maximum;
  to_int64 := f64_to_int64 pol;
  to_uint8 := f64_to_uint8 pol
|}.

(** For closed evaluations of the kernel variant: the float64 values of exp
    at the only three arguments those evaluations reach.  [exp(-0) = 1] is
    exact; the other two are the correctly rounded values
    (exp(-37) = 8.533047625744066e-17, exp(-74) = 7.281290178321643e-33).
    The evaluations below that use them only depend on
    [2^-54 < exp(-37) < 2^-53] and [exp(-74) < 2^-60], so they are the same
    for any exp of a few correct digits.  Elsewhere the table answers NaN,
    which would show in every result it touched. *)
Definition exp_table (x : float) : float :=
  if PrimFloat.is_zero x then 1%float
  else if PrimFloat.eqb x (-37)%float then 0x1.898471fca6055p-54%float
  else if PrimFloat.eqb x (-74)%float then 0x1.2e73f53fba844p-107%float
  else PrimFloat.nan.

(** numpy on x86-64, with [exp_table] for [np.exp]: the instance of every
    closed evaluation on floats below. *)
Definition numpy : Float64 float := f64 exp_table x86_64.

(** ** The real numbers: the same program without rounding *)

Definition real_trunc (x : R) : Z :=
  if Rle_dec 0 x then Int_part x else (- Int_part (- x))%Z.

Definition real_arith : Float64 R := {|
  of_int := IZR;
  half := (/ 2)%R;
  fadd := Rplus;
  fsub := Rminus;
  fmul := Rmult;
  fdiv := Rdiv;
  fneg := Ropp;
  fabs := Rabs;
  fsqrt := sqrt;
  fexp := exp;
  ffloor := fun x => IZR (Int_part x);
  fge := fun x y => if Rle_dec y x then true else false;
  fmaximum := Rmax;
  to_int64 := real_trunc;
  to_uint8 := fun x => (real_trunc x mod 256)%Z
|}.

#[local] Existing Instance numpy.
#[local] Existing Instance real_arith.

(** ** Vocabulary of the statements *)

Section Vocabulary.

Context {F : Type} {A : Float64 F}.

Local Open Scope f64_scope.

(** What the two clipping passes of [grayscale] keep, and the pixel index a
    kept sample is cast to. *)
Definition grayscale_keeps (i_range q_range : F * F) (img_resolution : Z * Z)
  (sample : F * F) : bool :=
  let '(x, y) := pixel_coord i_range q_range img_resolution sample in
  negb (ffloor x >=? of_int (fst img_resolution))
  && negb (ffloor y >=? of_int (snd img_resolution)).

Definition grayscale_index (i_range q_range : F * F) (img_resolution : Z * Z)
  (sample : F * F) : Z * Z :=
  let '(x, y) := pixel_coord i_range q_range img_resolution sample in
  (to_int64 (ffloor x), to_int64 (ffloor y)).

(** What the two clipping passes of [enhancedGrayscale] keep. *)
Definition enhanced_keeps (i_range q_range : F * F) (img_resolution : Z * Z)
  (sample : F * F) : bool :=
  let '(x, y) := pixel_coord i_range q_range img_resolution sample in
  negb (x >=? of_int (fst img_resolution))
  && negb (y >=? of_int (snd img_resolution)).

(** A sample's mapped coordinate is at or beyond the image on an axis. *)
Definition beyond (i_range q_range : F * F) (img_resolution : Z * Z)
  (sample : F * F) : bool :=
  let '(x, y) := pixel_coord i_range q_range img_resolution sample in
  (x >=? of_int (fst img_resolution)) || (y >=? of_int (snd img_resolution)).

(** The term one sample at [(x_sample, y_sample)] adds to pixel [(x, y)],
    whose centre is [(x + 0.5, y + 0.5)]. *)
Definition kernel_term (power decay : F) (x y : nat) (sample : F * F) : F :=
  power * fexp (- decay
                * centroid_distance (half + of_int (Z.of_nat x))
                    (half + of_int (Z.of_nat y)) (fst sample) (snd sample)).

(** The sum of the terms of the samples, taken in their order from 0. *)
Definition kernel_sum (power decay : F) (x y : nat) (samples : list (F * F)) : F :=
  fold_left (fun c s => c + kernel_term power decay x y s) samples (of_int 0).

(** What the loop over the samples (lines 108-113) does to the cell of pixel
    [(x, y)]. *)
Definition cell_loop (power decay : F) (x y : nat) (samples : list (F * F)) (c : F)
  : F :=
  fold_left (fun c s => c + kernel_term power decay x y s) samples c.

(** The first [n] pixel centres of an axis. *)
Definition first_centroids (n : nat) : list (nat * F) :=
  map (fun k => (k, half + of_int (Z.of_nat k))) (seq 0 n).

(** Lines 105-113 for the first [m] rows of a grid of [H] columns. *)
Definition pixel_loop (power decay : F) (m H : nat) (samples : list (F * F))
  (grid : list (list F)) : list (list F) :=
  fold_left
    (fun grid xc =>
       row_loop power decay (fst xc) (snd xc) (first_centroids H)
         (map fst samples) (map snd samples) grid)
    (first_centroids m) grid.

(** [c] is a positive constant. *)
Definition fpositive (c : F) : Prop :=
  (c >=? of_int 0) = true /\ (of_int 0 >=? c) = false.

(** Summation without rounding: the laws of real addition that make a sum
    independent of the order of its terms.  binary64 addition is commutative
    but not associative. *)
Record ExactSum : Prop := {
  exact_add_comm : forall a b, a + b = b + a;
  exact_add_assoc : forall a b c, a + (b + c) = (a + b) + c
}.

(** Scaling without rounding or overflow: the laws of the reals that let a
    positive factor move through products, sums, quotients and maxima.
    binary64 satisfies none of the first two in general. *)
Record ExactScaling : Prop := {
  exact_mul_assoc : forall a b c, a * (b * c) = (a * b) * c;
  exact_mul_add : forall c a b, c * (a + b) = c * a + c * b;
  exact_mul_zero : forall c, c * of_int 0 = of_int 0;
  exact_div_scale : forall c a b, fpositive c -> (c * a) / (c * b) = a / b;
  exact_max_scale :
    forall c a b, fpositive c -> fmaximum (c * a) (c * b) = c * fmaximum a b
}.

End Vocabulary.

Arguments ExactSum {F} A.
Arguments ExactScaling {F} A.

(** The position a Python index in [[-n, n)] denotes. *)
Definition wrap_index (n i : Z) : nat :=
  if (i <? 0)%Z then Z.to_nat (i + n) else Z.to_nat i.

Definition index_ok (img_resolution : Z * Z) (xy : Z * Z) : bool :=
  ((- fst img_resolution <=? fst xy) && (fst xy <? fst img_resolution))
  && ((- snd img_resolution <=? snd xy) && (snd xy <? snd img_resolution)).

(** The body of the binning loop (line 49) for an index pair that is in
    bounds. *)
Definition bin_step (img_resolution : Z * Z) (grid : list (list Z)) (xy : Z * Z)
  : list (list Z) :=
  grid_update grid (wrap_index (fst img_resolution) (fst xy))
    (wrap_index (snd img_resolution) (snd xy)) uint16_incr.

(** How many of the index pairs denote pixel [(x, y)]. *)
Definition hits (img_resolution : Z * Z) (idx : list (Z * Z)) (x y : nat) : nat :=
  length
    (filter
       (fun xy => Nat.eqb (wrap_index (fst img_resolution) (fst xy)) x
                  && Nat.eqb (wrap_index (snd img_resolution) (snd xy)) y)
       idx).

(** The binary64 representation of an integer [0 < p < 2^53]: the mantissa is
    [p] shifted left to 53 digits. *)
Definition canon_m (p : positive) : positive :=
  match (53 - Zpos (digits2_pos p))%Z with
  | Zpos k => Pos.iter xO p k
  | _ => p
  end.

Definition canon_e (p : positive) : Z := Zpos (digits2_pos p) - 53.

(** A float that is an infinity or NaN. *)
Definition f64_inf_or_nan (x : float) : bool :=
  match Prim2SF x with
  | S754_infinity _ | S754_nan => true
  | _ => false
  end.

(** A float that is neither a zero, an infinity nor NaN. *)
Definition f64_normal (x : float) : bool :=
  match Prim2SF x with
  | S754_finite _ _ _ => true
  | _ => false
  end.

(** For a largest count [m], every count [0 <= c <= m] is rendered as the
    integer quotient [255 * c / m]. *)
Definition floor_agrees (pol : cast_policy) (m : Z) : bool :=
  forallb
    (fun c =>
       (f64_to_uint8 pol (f64_of_int c / f64_of_int m * f64_of_int 255)%float
        =? 255 * c / m)%Z)
    (map Z.of_nat (seq 0 (S (Z.to_nat m)))).

(** The value of the positive finite float [m * 2^e], scaled by [2^1074] to
    an integer. *)
Definition f64_scaled (m : positive) (e : Z) : Z := Zpos m * 2 ^ (e + 1074).

(** A sample whose mapped coordinates are both at least 0. *)
Definition in_quadrant {F : Type} {A : Float64 F} (i_range q_range : F * F)
  (img_resolution : Z * Z) (sample : F * F) : bool :=
  let '(x, y) := pixel_coord i_range q_range img_resolution sample in
  fge x (of_int 0) && fge y (of_int 0).

(** The total of a row and of a grid of counts. *)
Definition row_sum (row : list Z) : Z := fold_right Z.add 0 row.

Definition grid_sum (grid : list (list Z)) : Z := row_sum (map row_sum grid).

(** For closed evaluations in which a pixel is out of the kernel's reach:
    [exp(-0) = 1], and float64 [exp] underflows to 0 at and below -746
    (the smallest positive float64 is 2^-1074 = exp(-744.44)).  Elsewhere
    the table answers NaN. *)
Definition exp_far (x : float) : float :=
  if PrimFloat.is_zero x then 1%float
  else if PrimFloat.leb x (-746)%float then 0%float
  else PrimFloat.nan.

(** A grid of shape [(W, H)]. *)
Definition shaped {A : Type} (W H : nat) (grid : list (list A)) : Prop :=
  length grid = W /\ Forall (fun row => length row = H) grid.

(** * Properties *)

(** ** Arrays *)

Lemma np_delete_map {A B : Type} (g : A -> B) (p : A -> bool) (l : list A) :
  np_delete (map g l) (map p l) = map g (filter (fun a => negb (p a)) l).
Proof.
  induction l as [|a l IH]; simpl.
  - reflexivity.
  - destruct (p a); simpl; rewrite IH; reflexivity.
Qed.

Lemma length_update {A : Type} (l : list A) (k : nat) (f : A -> A) :
  length (update l k f) = length l.
Proof.
  revert k. induction l as [|a l IH]; intros [|k]; simpl; auto.
Qed.

Lemma nth_update_same {A : Type} (l : list A) (k : nat) (f : A -> A) (d : A) :
  (k < length l)%nat -> nth k (update l k f) d = f (nth k l d).
Proof.
  revert k. induction l as [|a l IH]; intros [|k] Hk; simpl in *; try lia.
  - reflexivity.
  - apply IH. lia.
Qed.

Lemma nth_update_other {A : Type} (l : list A) (k j : nat) (f : A -> A) (d : A) :
  k <> j -> nth j (update l k f) d = nth j l d.
Proof.
  revert k j. induction l as [|a l IH]; intros [|k] [|j] Hkj; simpl; try reflexivity.
  - contradiction.
  - apply IH. lia.
Qed.

Lemma update_ext {A : Type} (l : list A) (k : nat) (f g : A -> A) :
  (forall a, f a = g a) -> update l k f = update l k g.
Proof.
  intros Hfg. revert k. induction l as [|a l IH]; intros [|k]; simpl.
  - reflexivity.
  - reflexivity.
  - rewrite Hfg. reflexivity.
  - rewrite IH. reflexivity.
Qed.

Lemma update_update {A : Type} (l : list A) (k : nat) (f g : A -> A) :
  update (update l k f) k g = update l k (fun a => g (f a)).
Proof.
  revert k. induction l as [|a l IH]; intros [|k]; simpl.
  - reflexivity.
  - reflexivity.
  - reflexivity.
  - rewrite IH. reflexivity.
Qed.

Lemma shaped_np_zeros {A : Type} (zero : A) (W H : Z) :
  shaped (Z.to_nat W) (Z.to_nat H) (np_zeros zero W H).
Proof.
  unfold shaped, np_zeros. split.
  - apply repeat_length.
  - apply Forall_forall. intros row Hrow.
    apply repeat_spec in Hrow. subst row. apply repeat_length.
Qed.

Lemma shaped_row {A : Type} (W H : nat) (grid : list (list A)) (x : nat) :
  shaped W H grid -> (x < W)%nat -> length (nth x grid []) = H.
Proof.
  intros [Hlen Hrows] Hx.
  rewrite Forall_forall in Hrows. apply Hrows. apply nth_In. lia.
Qed.

Lemma Forall_update {A : Type} (P : A -> Prop) (l : list A) (k : nat) (f : A -> A) :
  (forall a, P a -> P (f a)) -> Forall P l -> Forall P (update l k f).
Proof.
  intros Hf Hl. revert k.
  induction Hl as [|a l Ha Hl IH]; intros [|k]; simpl; constructor; auto.
Qed.

Lemma shaped_grid_update {A : Type} (W H : nat) (grid : list (list A))
  (x y : nat) (f : A -> A) :
  shaped W H grid -> shaped W H (grid_update grid x y f).
Proof.
  intros [Hlen Hrows]. unfold grid_update. split.
  - rewrite length_update. exact Hlen.
  - apply Forall_update; [|exact Hrows].
    intros row Hrow. rewrite length_update. exact Hrow.
Qed.

Lemma grid_get_update_same {A : Type} (W H : nat) (grid : list (list A))
  (x y : nat) (f : A -> A) (d : A) :
  shaped W H grid -> (x < W)%nat -> (y < H)%nat ->
  grid_get d (grid_update grid x y f) x y = f (grid_get d grid x y).
Proof.
  intros Hs Hx Hy. unfold grid_get, grid_update.
  pose proof (shaped_row W H grid x Hs Hx) as Hrow.
  destruct Hs as [Hlen _].
  rewrite nth_update_same by lia.
  apply nth_update_same. lia.
Qed.

Lemma grid_get_update_other {A : Type} (grid : list (list A))
  (x y x' y' : nat) (f : A -> A) (d : A) :
  (x, y) <> (x', y') ->
  grid_get d (grid_update grid x y f) x' y' = grid_get d grid x' y'.
Proof.
  intros Hne. unfold grid_get, grid_update.
  destruct (Nat.eq_dec x x') as [Hx|Hx].
  - subst x'. destruct (Nat.lt_ge_cases x (length grid)) as [Hlt|Hge].
    + rewrite nth_update_same by exact Hlt.
      apply nth_update_other. intros Hy. apply Hne. subst y'. reflexivity.
    + rewrite (nth_overflow (update grid x _) [])
        by (rewrite length_update; exact Hge).
      rewrite (nth_overflow grid []) by exact Hge. reflexivity.
  - rewrite nth_update_other by exact Hx. reflexivity.
Qed.

Lemma grid_update_update {A : Type} (grid : list (list A)) (x y : nat)
  (f g : A -> A) :
  grid_update (grid_update grid x y f) x y g
  = grid_update grid x y (fun a => g (f a)).
Proof.
  unfold grid_update. rewrite update_update.
  apply update_ext. intros row. apply update_update.
Qed.

(** Two grids of one shape with the same cells are the same grid. *)
Lemma grid_ext {A : Type} (W H : nat) (g1 g2 : list (list A)) (d : A) :
  shaped W H g1 -> shaped W H g2 ->
  (forall x y, (x < W)%nat -> (y < H)%nat -> grid_get d g1 x y = grid_get d g2 x y) ->
  g1 = g2.
Proof.
  intros Hs1 Hs2 Hget.
  apply (nth_ext g1 g2 [] []).
  - destruct Hs1 as [H1 _], Hs2 as [H2 _]. congruence.
  - intros x Hx. assert (HxW : (x < W)%nat) by (destruct Hs1; lia).
    apply (nth_ext _ _ d d).
    + rewrite (shaped_row W H g1 x Hs1 HxW), (shaped_row W H g2 x Hs2 HxW).
      reflexivity.
    + intros y Hy. rewrite (shaped_row W H g1 x Hs1 HxW) in Hy.
      apply Hget; assumption.
Qed.

Lemma shaped_map {A B : Type} (W H : nat) (f : A -> B) (grid : list (list A)) :
  shaped W H grid -> shaped W H (map (map f) grid).
Proof.
  intros [Hlen Hrows]. split.
  - rewrite length_map. exact Hlen.
  - apply Forall_map. eapply Forall_impl; [|exact Hrows].
    intros row Hrow. simpl. rewrite length_map. exact Hrow.
Qed.

Lemma grid_get_map {A B : Type} (W H : nat) (f : A -> B) (grid : list (list A))
  (x y : nat) (d : A) (d' : B) :
  shaped W H grid -> (x < W)%nat -> (y < H)%nat ->
  grid_get d' (map (map f) grid) x y = f (grid_get d grid x y).
Proof.
  intros Hs Hx Hy. unfold grid_get.
  pose proof (shaped_row W H grid x Hs Hx) as Hrow.
  assert (Hlen : (x < length grid)%nat) by (destruct Hs; lia).
  rewrite (nth_indep (map (map f) grid) [] (map f [])) by (rewrite length_map; exact Hlen).
  rewrite map_nth.
  rewrite (nth_indep (map f (nth x grid [])) d' (f d)) by (rewrite length_map; lia).
  apply map_nth.
Qed.

(** Every element of a shaped grid is one of its cells. *)
Lemma In_concat_grid_get {A : Type} (W H : nat) (grid : list (list A)) (c d : A) :
  shaped W H grid -> In c (concat grid) ->
  exists x y, (x < W)%nat /\ (y < H)%nat /\ grid_get d grid x y = c.
Proof.
  intros Hs Hin. apply in_concat in Hin. destruct Hin as (row & Hrow & Hc).
  apply (In_nth _ _ []) in Hrow. destruct Hrow as (x & Hx & Hnth).
  apply (In_nth _ _ d) in Hc. destruct Hc as (y & Hy & Hcell).
  assert (HxW : (x < W)%nat) by (destruct Hs; lia).
  exists x, y. repeat split.
  - exact HxW.
  - rewrite <- (shaped_row W H grid x Hs HxW). rewrite Hnth. exact Hy.
  - unfold grid_get. rewrite Hnth. exact Hcell.
Qed.

Lemma grid_get_In_concat {A : Type} (W H : nat) (grid : list (list A)) (x y : nat)
  (d : A) :
  shaped W H grid -> (x < W)%nat -> (y < H)%nat ->
  In (grid_get d grid x y) (concat grid).
Proof.
  intros Hs Hx Hy. apply in_concat. exists (nth x grid []). split.
  - apply nth_In. destruct Hs. lia.
  - apply nth_In. rewrite (shaped_row W H grid x Hs Hx). exact Hy.
Qed.

(** ** Lists *)

Lemma filter_filter {A : Type} (f g : A -> bool) (l : list A) :
  filter g (filter f l) = filter (fun a => f a && g a) l.
Proof.
  induction l as [|a l IH]; simpl.
  - reflexivity.
  - destruct (f a); simpl; [destruct (g a)|]; rewrite IH; reflexivity.
Qed.

Lemma split_map_pair {A B C : Type} (f : A -> B) (g : A -> C) (l : list A) :
  List.split (map (fun a => (f a, g a)) l) = (map f l, map g l).
Proof.
  induction l as [|a l IH]; simpl.
  - reflexivity.
  - rewrite IH. reflexivity.
Qed.

Lemma split_fst_snd {A B : Type} (l : list (A * B)) :
  List.split l = (map fst l, map snd l).
Proof.
  induction l as [|[a b] l IH]; simpl.
  - reflexivity.
  - rewrite IH. reflexivity.
Qed.

Lemma filter_Permutation {A : Type} (keep : A -> bool) :
  forall xs ys : list A,
    Permutation xs ys -> Permutation (filter keep xs) (filter keep ys).
Proof.
  intros xs ys Hp. set (f := keep).
  induction Hp as [|a l l' _ IH|a b l|l l' l'' _ IH1 _ IH2]; simpl.
  - constructor.
  - destruct (f a); [constructor|]; exact IH.
  - destruct (f a), (f b); try reflexivity. constructor.
  - etransitivity; eassumption.
Qed.

Lemma Permutation_forallb {A : Type} (f : A -> bool) (l l' : list A) :
  Permutation l l' -> forallb f l = forallb f l'.
Proof.
  induction 1 as [|a l l' _ IH|a b l|l l' l'' _ IH1 _ IH2]; simpl.
  - reflexivity.
  - rewrite IH. reflexivity.
  - destruct (f a), (f b); reflexivity.
  - congruence.
Qed.

(** ** The clipping passes *)

Section Clipping.

Context {F : Type} {A : Float64 F}.

Local Open Scope f64_scope.

(** The kept samples of [grayscale], cast to pixel indexes: the two
    [np.delete] passes are one filter of the sample sequence. *)
Lemma grayscale_clip_kept symbols i_range q_range img_resolution :
  grayscale_clip img_resolution
    (grayscale_transform symbols i_range q_range img_resolution)
  = List.split (map (grayscale_index i_range q_range img_resolution)
             (filter (grayscale_keeps i_range q_range img_resolution) symbols)).
Proof.
  destruct i_range as [i_min i_max], q_range as [q_min q_max],
    img_resolution as [W H].
  unfold grayscale_clip, grayscale_transform. cbn [fst snd].
  rewrite !map_map.
  set (fx := fun s : F * F => ffloor ((- (snd s - q_max)) * of_int W / (q_max - q_min))).
  set (fy := fun s : F * F => ffloor ((fst s + fabs i_min) * of_int H / (i_max - i_min))).
  rewrite (np_delete_map fx (fun s => fx s >=? of_int W)).
  rewrite (np_delete_map fy (fun s => fx s >=? of_int W)).
  rewrite map_map.
  rewrite (np_delete_map fx (fun s => fy s >=? of_int H)).
  rewrite (np_delete_map fy (fun s => fy s >=? of_int H)).
  rewrite filter_filter, !map_map.
  rewrite (split_fst_snd (map _ _)), !map_map.
  f_equal.
  - rewrite (filter_ext _ (grayscale_keeps (i_min, i_max) (q_min, q_max) (W, H)))
      by (intros [i q]; reflexivity).
    apply map_ext. intros [i q]. reflexivity.
  - rewrite (filter_ext _ (grayscale_keeps (i_min, i_max) (q_min, q_max) (W, H)))
      by (intros [i q]; reflexivity).
    apply map_ext. intros [i q]. reflexivity.
Qed.

(** The kept samples of [enhancedGrayscale], as continuous coordinates. *)
Lemma enhanced_clip_kept symbols i_range q_range img_resolution :
  enhanced_clip img_resolution
    (enhanced_transform symbols i_range q_range img_resolution)
  = List.split (map (pixel_coord i_range q_range img_resolution)
             (filter (enhanced_keeps i_range q_range img_resolution) symbols)).
Proof.
  destruct i_range as [i_min i_max], q_range as [q_min q_max],
    img_resolution as [W H].
  unfold enhanced_clip, enhanced_transform. cbn [fst snd].
  rewrite !map_map.
  set (fx := fun s : F * F => (- (snd s - q_max)) * of_int W / (q_max - q_min)).
  set (fy := fun s : F * F => (fst s + fabs i_min) * of_int H / (i_max - i_min)).
  rewrite (np_delete_map fx (fun s => fx s >=? of_int W)).
  rewrite (np_delete_map fy (fun s => fx s >=? of_int W)).
  rewrite map_map.
  rewrite (np_delete_map fx (fun s => fy s >=? of_int H)).
  rewrite (np_delete_map fy (fun s => fy s >=? of_int H)).
  rewrite filter_filter.
  rewrite (split_fst_snd (map _ _)), !map_map.
  f_equal.
  - rewrite (filter_ext _ (enhanced_keeps (i_min, i_max) (q_min, q_max) (W, H)))
      by (intros [i q]; reflexivity).
    apply map_ext. intros [i q]. reflexivity.
  - rewrite (filter_ext _ (enhanced_keeps (i_min, i_max) (q_min, q_max) (W, H)))
      by (intros [i q]; reflexivity).
    apply map_ext. intros [i q]. reflexivity.
Qed.

End Clipping.

(** ** The binning loop *)

Lemma py_index_ok n i :
  (- n <=? i) && (i <? n) = true -> py_index n i = Ok (wrap_index n i).
Proof.
  intros H. apply andb_true_iff in H. destruct H as [Hlo Hhi].
  apply Z.leb_le in Hlo. apply Z.ltb_lt in Hhi.
  unfold py_index, wrap_index.
  destruct (Z.ltb_spec i 0) as [Hneg|Hpos].
  - replace (0 <=? i) with false by (symmetry; apply Z.leb_gt; lia).
    replace (- n <=? i) with true by (symmetry; apply Z.leb_le; lia).
    reflexivity.
  - replace (0 <=? i) with true by (symmetry; apply Z.leb_le; lia).
    replace (i <? n) with true by (symmetry; apply Z.ltb_lt; lia).
    reflexivity.
Qed.

Lemma py_index_raises n i :
  (- n <=? i) && (i <? n) = false -> py_index n i = Raised IndexError.
Proof.
  intros H. unfold py_index.
  destruct (Z.leb_spec 0 i) as [Hpos|Hneg]; destruct (Z.ltb_spec i n) as [Hlt|Hge];
    destruct (Z.leb_spec (- n) i) as [Hlo|Hlo]; destruct (Z.ltb_spec i 0) as [Hn|Hn];
    simpl in *; try reflexivity; try discriminate; lia.
Qed.

Lemma wrap_index_lt n i :
  (- n <=? i) && (i <? n) = true -> (wrap_index n i < Z.to_nat n)%nat.
Proof.
  intros H. apply andb_true_iff in H. destruct H as [Hlo Hhi].
  apply Z.leb_le in Hlo. apply Z.ltb_lt in Hhi.
  unfold wrap_index. destruct (Z.ltb_spec i 0); lia.
Qed.

Lemma bin_samples_pairs img_resolution (idx : list (Z * Z)) grid :
  bin_samples img_resolution (map fst idx) (map snd idx) grid
  = if forallb (index_ok img_resolution) idx
    then Ok (fold_left (bin_step img_resolution) idx grid)
    else Raised IndexError.
Proof.
  revert grid. induction idx as [|[x y] idx IH]; intros grid.
  - reflexivity.
  - cbn [map fst snd bin_samples forallb fold_left].
    unfold index_ok at 1. cbn [fst snd].
    destruct ((- fst img_resolution <=? x) && (x <? fst img_resolution)) eqn:Hx.
    + rewrite (py_index_ok _ _ Hx). cbn [bind andb].
      destruct ((- snd img_resolution <=? y) && (y <? snd img_resolution)) eqn:Hy.
      * rewrite (py_index_ok _ _ Hy). cbn [bind]. apply IH.
      * rewrite (py_index_raises _ _ Hy). reflexivity.
    + rewrite (py_index_raises _ _ Hx). reflexivity.
Qed.

Lemma shaped_bin_fold W H idx grid :
  shaped (Z.to_nat W) (Z.to_nat H) grid ->
  shaped (Z.to_nat W) (Z.to_nat H) (fold_left (bin_step (W, H)) idx grid).
Proof.
  revert grid. induction idx as [|xy idx IH]; intros grid Hs; simpl.
  - exact Hs.
  - apply IH. apply shaped_grid_update. exact Hs.
Qed.

(** After the loop, a cell has been incremented once per index pair that
    denotes it. *)
Lemma bin_fold_get W H idx grid x y :
  shaped (Z.to_nat W) (Z.to_nat H) grid ->
  (x < Z.to_nat W)%nat -> (y < Z.to_nat H)%nat ->
  grid_get 0 (fold_left (bin_step (W, H)) idx grid) x y
  = Nat.iter (hits (W, H) idx x y) uint16_incr (grid_get 0 grid x y).
Proof.
  intros Hs Hx Hy. revert grid Hs.
  induction idx as [|[xi yi] idx IH]; intros grid Hs.
  - reflexivity.
  - cbn [fold_left]. rewrite IH by (apply shaped_grid_update; exact Hs).
    unfold hits. cbn [filter fst snd]. unfold bin_step. cbn [fst snd].
    destruct (Nat.eqb_spec (wrap_index W xi) x) as [Hex|Hex];
      destruct (Nat.eqb_spec (wrap_index H yi) y) as [Hey|Hey]; cbn [andb length].
    + subst x y.
      rewrite (grid_get_update_same (Z.to_nat W) (Z.to_nat H)) by assumption.
      rewrite Nat.iter_swap. reflexivity.
    + rewrite grid_get_update_other by congruence. reflexivity.
    + rewrite grid_get_update_other by congruence. reflexivity.
    + rewrite grid_get_update_other by congruence. reflexivity.
Qed.

Lemma uint16_incr_iter n c :
  0 <= c -> Nat.iter n uint16_incr (c mod 65536) = (c + Z.of_nat n) mod 65536.
Proof.
  intros Hc. induction n as [|n IH].
  - simpl. f_equal. lia.
  - rewrite Nat.iter_succ, IH. unfold uint16_incr.
    rewrite Z.add_mod_idemp_l by lia. f_equal. lia.
Qed.

Lemma grid_get_np_zeros {A : Type} (zero : A) (W H : Z) (x y : nat) :
  grid_get zero (np_zeros zero W H) x y = zero.
Proof.
  unfold grid_get, np_zeros.
  destruct (Nat.lt_ge_cases x (Z.to_nat W)) as [Hx|Hx].
  - assert (Hrow : nth x (repeat (repeat zero (Z.to_nat H)) (Z.to_nat W)) []
                   = repeat zero (Z.to_nat H)).
    { rewrite (nth_indep (repeat (repeat zero (Z.to_nat H)) (Z.to_nat W)) []
                 (repeat zero (Z.to_nat H))) by (rewrite repeat_length; exact Hx).
      apply nth_repeat. }
    rewrite Hrow. apply nth_repeat.
  - rewrite (nth_overflow (repeat (repeat zero (Z.to_nat H)) (Z.to_nat W)) [])
      by (rewrite repeat_length; exact Hx).
    destruct y; reflexivity.
Qed.

(** The count grid, cell by cell: the number of kept samples whose index
    denotes the cell, modulo [2^16]. *)
Lemma bin_grid_get W H (idx : list (Z * Z)) grid x y :
  bin_grid (W, H) (List.split idx) = Ok grid ->
  (x < Z.to_nat W)%nat -> (y < Z.to_nat H)%nat ->
  grid_get 0 grid x y = Z.of_nat (hits (W, H) idx x y) mod 65536.
Proof.
  unfold bin_grid. rewrite split_fst_snd. cbn [fst snd].
  destruct ((W <? 0) || (H <? 0)); [discriminate|].
  rewrite bin_samples_pairs.
  destruct (forallb (index_ok (W, H)) idx); [|discriminate].
  intros Hg Hx Hy. injection Hg as <-.
  rewrite bin_fold_get by (try apply shaped_np_zeros; assumption).
  rewrite grid_get_np_zeros.
  change 0 with (0 mod 65536) at 1.
  rewrite uint16_incr_iter by lia. reflexivity.
Qed.

Lemma shaped_bin_grid W H (idx : list (Z * Z)) grid :
  bin_grid (W, H) (List.split idx) = Ok grid ->
  shaped (Z.to_nat W) (Z.to_nat H) grid.
Proof.
  unfold bin_grid. rewrite split_fst_snd. cbn [fst snd].
  destruct ((W <? 0) || (H <? 0)); [discriminate|].
  rewrite bin_samples_pairs.
  destruct (forallb (index_ok (W, H)) idx); [|discriminate].
  intros Hg. injection Hg as <-.
  apply shaped_bin_fold, shaped_np_zeros.
Qed.

Lemma hits_Permutation img_resolution idx idx' x y :
  Permutation idx idx' -> hits img_resolution idx x y = hits img_resolution idx' x y.
Proof.
  intros Hp. unfold hits. apply Permutation_length, filter_Permutation, Hp.
Qed.

(** The count grid does not depend on the order of the index pairs. *)
Lemma bin_grid_Permutation img_resolution (idx idx' : list (Z * Z)) :
  Permutation idx idx' ->
  bin_grid img_resolution (List.split idx) = bin_grid img_resolution (List.split idx').
Proof.
  intros Hp. destruct img_resolution as [W H].
  destruct (bin_grid (W, H) (List.split idx)) as [g|e] eqn:Hg;
    destruct (bin_grid (W, H) (List.split idx')) as [g'|e'] eqn:Hg'.
  - f_equal.
    apply (grid_ext (Z.to_nat W) (Z.to_nat H) g g' 0).
    + eapply shaped_bin_grid; eassumption.
    + eapply shaped_bin_grid; eassumption.
    + intros x y Hx Hy.
      rewrite (bin_grid_get W H idx g x y Hg Hx Hy).
      rewrite (bin_grid_get W H idx' g' x y Hg' Hx Hy).
      rewrite (hits_Permutation (W, H) idx idx' x y Hp). reflexivity.
  - exfalso. revert Hg Hg'. unfold bin_grid. rewrite !split_fst_snd. cbn [fst snd].
    destruct ((W <? 0) || (H <? 0)); [discriminate|].
    rewrite !bin_samples_pairs, (Permutation_forallb _ _ _ Hp).
    destruct (forallb (index_ok (W, H)) idx'); discriminate.
  - exfalso. revert Hg Hg'. unfold bin_grid. rewrite !split_fst_snd. cbn [fst snd].
    destruct ((W <? 0) || (H <? 0)); [discriminate|].
    rewrite !bin_samples_pairs, (Permutation_forallb _ _ _ Hp).
    destruct (forallb (index_ok (W, H)) idx'); discriminate.
  - revert Hg Hg'. unfold bin_grid. rewrite !split_fst_snd. cbn [fst snd].
    destruct ((W <? 0) || (H <? 0)); [congruence|].
    rewrite !bin_samples_pairs, (Permutation_forallb _ _ _ Hp).
    destruct (forallb (index_ok (W, H)) idx'); congruence.
Qed.

(** ** The kernel loops *)

Lemma update_id {A : Type} (l : list A) (k : nat) : update l k (fun a => a) = l.
Proof.
  revert k. induction l as [|a l IH]; intros [|k]; simpl; try reflexivity.
  rewrite IH. reflexivity.
Qed.

Lemma grid_update_id {A : Type} (grid : list (list A)) (x y : nat) :
  grid_update grid x y (fun a => a) = grid.
Proof.
  unfold grid_update.
  rewrite (update_ext grid x _ (fun row => row)) by (intros row; apply update_id).
  apply update_id.
Qed.

Section KernelLoops.

Context {F : Type} {A : Float64 F}.

Local Open Scope f64_scope.

Variables power decay : F.

Lemma sample_loop_pairs (x y : nat) (samples : list (F * F)) grid :
  sample_loop power decay x (half + of_int (Z.of_nat x)) y (half + of_int (Z.of_nat y))
    (map fst samples) (map snd samples) grid
  = grid_update grid x y (cell_loop power decay x y samples).
Proof.
  revert grid. induction samples as [|s samples IH]; intros grid.
  - unfold cell_loop. simpl. symmetry. apply grid_update_id.
  - cbn [map sample_loop]. rewrite IH, grid_update_update. reflexivity.
Qed.

Lemma first_centroids_S n :
  first_centroids (S n)
  = first_centroids n ++ [(n, half + of_int (Z.of_nat n))].
Proof.
  unfold first_centroids. rewrite seq_S, map_app. reflexivity.
Qed.

Lemma shaped_row_loop W H x n samples grid :
  shaped W H grid ->
  shaped W H (row_loop power decay x (half + of_int (Z.of_nat x))
                (first_centroids n) (map fst samples) (map snd samples) grid).
Proof.
  intros Hs. unfold row_loop. induction n as [|n IH].
  - exact Hs.
  - rewrite first_centroids_S, fold_left_app. cbn [fold_left fst snd].
    rewrite sample_loop_pairs. apply shaped_grid_update. exact IH.
Qed.

(** After the first [n] pixels of row [x], those cells hold their loop's
    result and every other cell is untouched. *)
Lemma row_loop_get W H x n samples grid d x' y' :
  shaped W H grid -> (x < W)%nat -> (n <= H)%nat ->
  grid_get d (row_loop power decay x (half + of_int (Z.of_nat x))
                (first_centroids n) (map fst samples) (map snd samples) grid) x' y'
  = if Nat.eqb x' x && Nat.ltb y' n
    then cell_loop power decay x y' samples (grid_get d grid x' y')
    else grid_get d grid x' y'.
Proof.
  intros Hs Hx. induction n as [|n IH]; intros Hn.
  - rewrite andb_false_r. reflexivity.
  - unfold row_loop in *. rewrite first_centroids_S, fold_left_app.
    cbn [fold_left fst snd]. rewrite sample_loop_pairs.
    destruct (Nat.eq_dec x' x) as [Hex|Hex];
      destruct (Nat.eq_dec y' n) as [Hey|Hey].
    + subst x' y'.
      rewrite (grid_get_update_same W H)
        by (try apply (shaped_row_loop W H x n samples grid Hs); lia).
      rewrite IH by lia.
      rewrite Nat.eqb_refl, Nat.ltb_irrefl. cbn [andb].
      replace (n <? S n)%nat with true by (symmetry; apply Nat.ltb_lt; lia).
      reflexivity.
    + rewrite grid_get_update_other by congruence.
      rewrite IH by lia. subst x'. rewrite Nat.eqb_refl. cbn [andb].
      destruct (Nat.ltb_spec y' n); destruct (Nat.ltb_spec y' (S n));
        try reflexivity; lia.
    + rewrite grid_get_update_other by congruence.
      rewrite IH by lia.
      replace (x' =? x)%nat with false by (symmetry; apply Nat.eqb_neq; exact Hex).
      reflexivity.
    + rewrite grid_get_update_other by congruence.
      rewrite IH by lia.
      replace (x' =? x)%nat with false by (symmetry; apply Nat.eqb_neq; exact Hex).
      reflexivity.
Qed.

Lemma shaped_pixel_loop W H m samples grid :
  shaped W H grid -> shaped W H (pixel_loop power decay m H samples grid).
Proof.
  intros Hs. unfold pixel_loop. induction m as [|m IH].
  - exact Hs.
  - rewrite first_centroids_S, fold_left_app. cbn [fold_left fst snd].
    apply shaped_row_loop. exact IH.
Qed.

Lemma pixel_loop_get W H m samples grid d x' y' :
  shaped W H grid -> (m <= W)%nat ->
  grid_get d (pixel_loop power decay m H samples grid) x' y'
  = if Nat.ltb x' m && Nat.ltb y' H
    then cell_loop power decay x' y' samples (grid_get d grid x' y')
    else grid_get d grid x' y'.
Proof.
  intros Hs. induction m as [|m IH]; intros Hm.
  - reflexivity.
  - unfold pixel_loop in *. rewrite first_centroids_S, fold_left_app.
    cbn [fold_left fst snd].
    rewrite (row_loop_get W H)
      by (try apply (shaped_pixel_loop W H m samples grid Hs); lia).
    rewrite IH by lia.
    destruct (Nat.eqb_spec x' m) as [Hex|Hex]; cbn [andb].
    + subst x'. rewrite Nat.ltb_irrefl. cbn [andb].
      replace (m <? S m)%nat with true by (symmetry; apply Nat.ltb_lt; lia).
      reflexivity.
    + destruct (Nat.ltb_spec x' m); destruct (Nat.ltb_spec x' (S m));
        try reflexivity; lia.
Qed.

End KernelLoops.

Section PowerGrid.

Context {F : Type} {A : Float64 F}.

Local Open Scope f64_scope.

Lemma power_grid_pixel_loop W H power decay (samples : list (F * F)) :
  power_grid (W, H) power decay (List.split samples)
  = if (W <? 0)%Z || (H <? 0)%Z then Raised ValueError
    else Ok (pixel_loop power decay (Z.to_nat W) (Z.to_nat H) samples
               (np_zeros (of_int 0) W H)).
Proof.
  unfold power_grid. rewrite split_fst_snd. reflexivity.
Qed.

Lemma shaped_power_grid W H power decay (samples : list (F * F)) grid :
  power_grid (W, H) power decay (List.split samples) = Ok grid ->
  shaped (Z.to_nat W) (Z.to_nat H) grid.
Proof.
  rewrite power_grid_pixel_loop.
  destruct ((W <? 0)%Z || (H <? 0)%Z); [discriminate|].
  intros Hg. injection Hg as <-.
  apply shaped_pixel_loop, shaped_np_zeros.
Qed.

(** The power grid, cell by cell. *)
Lemma power_grid_get W H power decay (samples : list (F * F)) grid x y :
  power_grid (W, H) power decay (List.split samples) = Ok grid ->
  (x < Z.to_nat W)%nat -> (y < Z.to_nat H)%nat ->
  grid_get (of_int 0) grid x y = kernel_sum power decay x y samples.
Proof.
  rewrite power_grid_pixel_loop.
  destruct ((W <? 0)%Z || (H <? 0)%Z); [discriminate|].
  intros Hg Hx Hy. injection Hg as <-.
  rewrite (pixel_loop_get power decay (Z.to_nat W) (Z.to_nat H))
    by (try apply shaped_np_zeros; lia).
  replace (x <? Z.to_nat W)%nat with true by (symmetry; apply Nat.ltb_lt; exact Hx).
  replace (y <? Z.to_nat H)%nat with true by (symmetry; apply Nat.ltb_lt; exact Hy).
  cbn [andb]. rewrite grid_get_np_zeros. reflexivity.
Qed.

End PowerGrid.

(** ** Exact arithmetic *)

Section Exact.

Context {F : Type} {A : Float64 F}.

Local Open Scope f64_scope.


Lemma cell_loop_Permutation (exact : ExactSum A) power decay x y (samples samples' : list (F * F)) :
  Permutation samples samples' ->
  forall c, cell_loop power decay x y samples c = cell_loop power decay x y samples' c.
Proof.
  unfold cell_loop.
  induction 1 as [|s l l' _ IH|s t l|l l' l'' _ IH1 _ IH2]; intros c; cbn [fold_left].
  - reflexivity.
  - apply IH.
  - f_equal.
    rewrite <- !(exact_add_assoc exact).
    f_equal. apply (exact_add_comm exact).
  - rewrite IH1. apply IH2.
Qed.

Lemma cell_loop_scale (exact : ExactScaling A) power decay x y (samples : list (F * F)) c0 c :
  cell_loop (c0 * power) decay x y samples (c0 * c)
  = c0 * cell_loop power decay x y samples c.
Proof.
  unfold cell_loop. revert c.
  induction samples as [|s samples IH]; intros c; cbn [fold_left].
  - reflexivity.
  - rewrite <- IH. f_equal. unfold kernel_term.
    rewrite (exact_mul_add exact), (exact_mul_assoc exact). reflexivity.
Qed.

Lemma kernel_sum_scale (exact : ExactScaling A) power decay x y (samples : list (F * F)) c0 :
  kernel_sum (c0 * power) decay x y samples = c0 * kernel_sum power decay x y samples.
Proof.
  change (cell_loop (c0 * power) decay x y samples (of_int 0)
          = c0 * cell_loop power decay x y samples (of_int 0)).
  rewrite <- (cell_loop_scale exact), (exact_mul_zero exact). reflexivity.
Qed.

Lemma power_grid_Permutation (exact : ExactSum A) img_resolution power decay (samples samples' : list (F * F)) :
  Permutation samples samples' ->
  power_grid img_resolution power decay (List.split samples)
  = power_grid img_resolution power decay (List.split samples').
Proof.
  intros Hp. destruct img_resolution as [W H].
  destruct (power_grid (W, H) power decay (List.split samples)) as [g|e] eqn:Hg;
    destruct (power_grid (W, H) power decay (List.split samples')) as [g'|e'] eqn:Hg'.
  - f_equal. apply (grid_ext (Z.to_nat W) (Z.to_nat H) g g' (of_int 0)).
    + eapply shaped_power_grid; eassumption.
    + eapply shaped_power_grid; eassumption.
    + intros x y Hx Hy.
      rewrite (power_grid_get W H power decay samples g x y Hg Hx Hy).
      rewrite (power_grid_get W H power decay samples' g' x y Hg' Hx Hy).
      apply (cell_loop_Permutation exact power decay x y samples samples' Hp).
  - exfalso. revert Hg Hg'. rewrite !power_grid_pixel_loop.
    destruct ((W <? 0)%Z || (H <? 0)%Z); discriminate.
  - exfalso. revert Hg Hg'. rewrite !power_grid_pixel_loop.
    destruct ((W <? 0)%Z || (H <? 0)%Z); discriminate.
  - revert Hg Hg'. rewrite !power_grid_pixel_loop.
    destruct ((W <? 0)%Z || (H <? 0)%Z); congruence.
Qed.

Lemma power_grid_scale (exact : ExactScaling A) img_resolution power decay (samples : list (F * F)) c grid :
  power_grid img_resolution power decay (List.split samples) = Ok grid ->
  power_grid img_resolution (c * power) decay (List.split samples)
  = Ok (map (map (fmul c)) grid).
Proof.
  destruct img_resolution as [W H]. intros Hg.
  destruct (power_grid (W, H) (c * power) decay (List.split samples)) as [g'|e'] eqn:Hg'.
  - f_equal. apply (grid_ext (Z.to_nat W) (Z.to_nat H) _ _ (of_int 0)).
    + eapply shaped_power_grid; eassumption.
    + apply shaped_map. eapply shaped_power_grid; eassumption.
    + intros x y Hx Hy.
      rewrite (power_grid_get W H _ decay samples g' x y Hg' Hx Hy).
      rewrite (grid_get_map (Z.to_nat W) (Z.to_nat H) _ grid x y (of_int 0))
        by (try (eapply shaped_power_grid; eassumption); assumption).
      rewrite (power_grid_get W H power decay samples grid x y Hg Hx Hy).
      apply (kernel_sum_scale exact).
  - exfalso. revert Hg Hg'. rewrite !power_grid_pixel_loop.
    destruct ((W <? 0)%Z || (H <? 0)%Z); discriminate.
Qed.

Lemma fold_maximum_scale (exact : ExactScaling A) c (cs : list F) c0 :
  fpositive c ->
  fold_left fmaximum (map (fmul c) cs) (c * c0) = c * fold_left fmaximum cs c0.
Proof.
  intros Hc. revert c0. induction cs as [|a cs IH]; intros c0; cbn [map fold_left].
  - reflexivity.
  - rewrite (exact_max_scale exact) by exact Hc. apply IH.
Qed.

(** Scaling every cell by a positive constant does not change the raster. *)
Lemma enhanced_img_grid_scale (exact : ExactScaling A) c (grid : list (list F)) :
  fpositive c ->
  enhanced_img_grid (map (map (fmul c)) grid) = enhanced_img_grid grid.
Proof.
  intros Hc. unfold enhanced_img_grid, np_max.
  rewrite <- concat_map.
  destruct (concat grid) as [|c0 cs]; cbn [map bind].
  - reflexivity.
  - rewrite (fold_maximum_scale exact) by exact Hc. f_equal.
    rewrite !map_map. apply map_ext. intros row.
    rewrite !map_map. apply map_ext. intros v.
    rewrite (exact_div_scale exact) by exact Hc. reflexivity.
Qed.

End Exact.

Lemma real_exact_sum : ExactSum real_arith.
Proof.
  constructor; cbn [fadd real_arith]; intros.
  - apply Rplus_comm.
  - symmetry. apply Rplus_assoc.
Qed.

Lemma real_positive c : fpositive (A := real_arith) c -> (0 < c)%R.
Proof.
  intros [Hge Hle]. cbn [fge real_arith of_int] in Hge, Hle.
  destruct (Rle_dec c 0) as [Hc|Hc]; [discriminate | lra].
Qed.

Lemma real_exact_scaling : ExactScaling real_arith.
Proof.
  constructor; cbn [fadd fmul fdiv fmaximum of_int real_arith]; intros.
  - symmetry. apply Rmult_assoc.
  - apply Rmult_plus_distr_l.
  - apply Rmult_0_r.
  - apply real_positive in H.
    unfold Rdiv. rewrite Rinv_mult.
    replace (c * a * (/ c * / b))%R with ((c * / c) * (a * / b))%R by ring.
    rewrite Rinv_r by lra. ring.
  - apply real_positive in H. apply RmaxRmult. lra.
Qed.

(** ** binary64 facts *)

Lemma digits2_pos_size p : digits2_pos p = Pos.size p.
Proof. induction p; simpl; congruence. Qed.

Lemma digits2_pos_iter_xO p k :
  digits2_pos (Pos.iter xO p k) = (digits2_pos p + k)%positive.
Proof.
  induction k using Pos.peano_ind.
  - simpl. lia.
  - rewrite Pos.iter_succ. simpl. rewrite IHk. lia.
Qed.

Lemma iter_xO_value p k : Zpos (Pos.iter xO p k) = Zpos p * 2 ^ Zpos k.
Proof.
  induction k using Pos.peano_ind.
  - simpl. lia.
  - rewrite Pos.iter_succ, Pos2Z.inj_xO, IHk, Pos2Z.inj_succ, Z.pow_succ_r by lia. ring.
Qed.

Lemma digits2_pos_bounds p :
  2 ^ (Zpos (digits2_pos p) - 1) <= Zpos p < 2 ^ Zpos (digits2_pos p).
Proof.
  rewrite digits2_pos_size.
  pose proof (Pos.size_gt p) as Hgt. pose proof (Pos.size_le p) as Hle.
  apply Pos2Z.pos_lt_pos in Hgt. apply Pos2Z.pos_le_pos in Hle.
  rewrite Pos2Z.inj_pow in Hgt, Hle. rewrite (Pos2Z.inj_xO p) in Hle.
  split; [|exact Hgt].
  replace (Zpos (Pos.size p)) with (Z.succ (Zpos (Pos.size p) - 1)) in Hle by lia.
  rewrite Z.pow_succ_r in Hle by lia. lia.
Qed.

Lemma digits2_pos_le p n : 0 <= n -> Zpos p < 2 ^ n -> Zpos (digits2_pos p) <= n.
Proof.
  intros Hn Hp. destruct (digits2_pos_bounds p) as [Hlo _].
  assert (H : 2 ^ (Zpos (digits2_pos p) - 1) < 2 ^ n) by lia.
  apply Z.pow_lt_mono_r_iff in H; lia.
Qed.

Lemma digits2_pos_mono p q : (p <= q)%positive -> Zpos (digits2_pos p) <= Zpos (digits2_pos q).
Proof.
  intros Hpq. apply digits2_pos_le; [lia|].
  destruct (digits2_pos_bounds q). lia.
Qed.

Lemma fexp_normal d e : d = 53 -> -1074 <= e -> SpecFloat.fexp prec emax (d + e) - e = 0.
Proof. intros -> He. unfold SpecFloat.fexp, SpecFloat.emin, prec, emax. lia. Qed.

Lemma binary_round_aux_exact s m e :
  Zpos (digits2_pos m) = 53 -> -1074 <= e <= 971 ->
  binary_round_aux prec emax s (Zpos m) e loc_Exact = S754_finite s m e.
Proof.
  intros Hd He.
  unfold binary_round_aux, shr_fexp. 
  cbn [Zdigits2]. rewrite (fexp_normal _ _ Hd) by lia.
  cbn [shr shr_record_of_loc shr_m loc_of_shr_record round_nearest_even Zdigits2].
  rewrite (fexp_normal _ _ Hd) by lia.
  cbn [shr shr_record_of_loc shr_m].
  replace (e <=? emax - prec) with true; [reflexivity|].
  symmetry. apply Z.leb_le. unfold emax, prec. lia.
Qed.

Lemma canon_m_digits p : Zpos (digits2_pos p) <= 53 -> Zpos (digits2_pos (canon_m p)) = 53.
Proof.
  intros Hd. unfold canon_m.
  destruct (53 - Zpos (digits2_pos p)) as [|k|k] eqn:Hk; try lia.
  rewrite digits2_pos_iter_xO. lia.
Qed.

Lemma canon_m_value p :
  Zpos (digits2_pos p) <= 53 -> Zpos (canon_m p) = Zpos p * 2 ^ (- canon_e p).
Proof.
  intros Hd. unfold canon_m, canon_e.
  destruct (53 - Zpos (digits2_pos p)) as [|k|k] eqn:Hk; try lia.
  - replace (- (Zpos (digits2_pos p) - 53)) with 0 by lia. lia.
  - rewrite iter_xO_value. f_equal. f_equal. lia.
Qed.

Lemma binary_normalize_small p :
  Zpos (digits2_pos p) <= 53 ->
  binary_normalize prec emax (Zpos p) 0 false = S754_finite false (canon_m p) (canon_e p).
Proof.
  intros Hd.
  pose proof (canon_m_digits p Hd) as Hcd.
  unfold binary_normalize, binary_round.
  assert (Hf : SpecFloat.fexp prec emax (Zpos (digits2_pos p) + 0) = canon_e p).
  { unfold canon_e, SpecFloat.fexp, SpecFloat.emin, prec, emax. lia. }
  rewrite Hf. unfold shl_align.
  assert (Hal : (match canon_e p - 0 with
                 | Zneg d => (Pos.iter xO p d, canon_e p)
                 | _ => (p, 0)
                 end) = (canon_m p, canon_e p)).
  { unfold canon_m, canon_e.
    destruct (Zpos (digits2_pos p) - 53 - 0) as [|k|k] eqn:Hk; try lia.
    - replace (53 - Zpos (digits2_pos p)) with 0 by lia.
      f_equal. lia.
    - replace (53 - Zpos (digits2_pos p)) with (Zpos k) by lia. reflexivity. }
  rewrite Hal.
  apply binary_round_aux_exact; [exact Hcd|]. unfold canon_e.
  pose proof (Pos2Z.is_pos (digits2_pos p)). lia.
Qed.

Lemma Prim2SF_of_int_pos p :
  Zpos p < 2 ^ 53 ->
  Prim2SF (f64_of_int (Zpos p)) = S754_finite false (canon_m p) (canon_e p).
Proof.
  intros Hp. unfold f64_of_int. cbn [Z.ltb Z.compare].
  rewrite FloatAxioms.of_uint63_spec, Uint63.of_Z_spec.
  rewrite Z.mod_small by (unfold wB; simpl; lia).
  apply binary_normalize_small. apply digits2_pos_le; lia.
Qed.

Lemma Prim2SF_of_int_neg p :
  Zpos p < 2 ^ 53 ->
  Prim2SF (f64_of_int (Zneg p)) = S754_finite true (canon_m p) (canon_e p).
Proof.
  intros Hp. unfold f64_of_int. cbn [Z.ltb Z.compare Z.opp].
  rewrite FloatAxioms.opp_spec, FloatAxioms.of_uint63_spec, Uint63.of_Z_spec.
  rewrite Z.mod_small by (unfold wB; simpl; lia).
  rewrite binary_normalize_small by (apply digits2_pos_le; lia).
  reflexivity.
Qed.

Lemma bounded_canonical m e :
  SpecFloat.bounded prec emax m e = true ->
  Z.max (Zpos (digits2_pos m) + e - 53) (-1074) = e /\ e <= 971.
Proof.
  unfold SpecFloat.bounded, SpecFloat.canonical_mantissa, SpecFloat.fexp, SpecFloat.emin, prec, emax.
  intros H. apply andb_true_iff in H. destruct H as [H1 H2].
  apply Z.eqb_eq in H1. apply Z.leb_le in H2. split; [exact H1 | lia].
Qed.

Lemma SFleb_finite_pos m1 e1 m2 e2 :
  SFleb (S754_finite false m1 e1) (S754_finite false m2 e2) = true ->
  e1 < e2 \/ (e1 = e2 /\ (m1 <= m2)%positive).
Proof.
  unfold SFleb, SFcompare.
  destruct (Z.compare_spec e1 e2) as [He|He|He]; intros H.
  - right. split; [exact He|].
    change (Pos.compare_cont Eq m1 m2) with (Pos.compare m1 m2) in H.
    destruct (Pos.compare_spec m1 m2); try discriminate; lia.
  - left. exact He.
  - discriminate.
Qed.

Lemma SFleb_canon_value p m e :
  Zpos (digits2_pos p) <= 53 -> SpecFloat.bounded prec emax m e = true -> e < 0 ->
  SFleb (S754_finite false (canon_m p) (canon_e p)) (S754_finite false m e) = true ->
  Zpos p * 2 ^ (- e) <= Zpos m.
Proof.
  intros Hd Hb He Hle.
  apply bounded_canonical in Hb. destruct Hb as [Hc _].
  apply SFleb_finite_pos in Hle. destruct Hle as [Hlt | [Heq Hm]].
  - (* the exponent of [m] is larger: [m] has 53 digits and [p] fewer *)
    unfold canon_e in Hlt.
    assert (Hdm : Zpos (digits2_pos m) = 53) by lia.
    destruct (digits2_pos_bounds m) as [Hlo _]. rewrite Hdm in Hlo.
    destruct (digits2_pos_bounds p) as [_ Hhi].
    assert (Hpow : 2 ^ Zpos (digits2_pos p) * 2 ^ (- e) <= 2 ^ 52).
    { rewrite <- Z.pow_add_r by lia. apply Z.pow_le_mono_r; lia. }
    assert (0 < 2 ^ (- e)) by (apply Z.pow_pos_nonneg; lia).
    change (53 - 1) with 52 in Hlo.
    nia.
  - rewrite <- Heq. rewrite <- canon_m_value by exact Hd. lia.
Qed.

Lemma SFleb_canon_mono p q :
  (p <= q)%positive -> Zpos (digits2_pos q) <= 53 ->
  SFleb (S754_finite false (canon_m p) (canon_e p))
        (S754_finite false (canon_m q) (canon_e q)) = true.
Proof.
  intros Hpq Hq.
  pose proof (digits2_pos_mono p q Hpq) as Hd.
  unfold SFleb, SFcompare.
  destruct (Z.compare_spec (canon_e p) (canon_e q)) as [He|He|He].
  - change (Pos.compare_cont Eq (canon_m p) (canon_m q))
      with (Pos.compare (canon_m p) (canon_m q)).
    assert (Hm : Zpos (canon_m p) <= Zpos (canon_m q)).
    { rewrite !canon_m_value by lia. rewrite He.
      apply Z.mul_le_mono_nonneg_r; [apply Z.pow_nonneg; lia | lia]. }
    destruct (Pos.compare_spec (canon_m p) (canon_m q)); try reflexivity. lia.
  - reflexivity.
  - unfold canon_e in He. lia.
Qed.

(** [np.floor] never crosses an integer: a float that is at least [W] has a
    floor that is at least [W]. *)
Lemma f64_floor_ge x W :
  0 <= W < 2 ^ 53 ->
  f64_ge x (f64_of_int W) = true -> f64_ge (f64_floor x) (f64_of_int W) = true.
Proof.
  intros HW. unfold f64_ge. rewrite !FloatAxioms.leb_spec.
  pose proof (Prim2SF_valid x) as Hv.
  unfold f64_floor.
  destruct (Prim2SF x) as [sx|sx| |s m e] eqn:Hx; try (rewrite Hx; tauto).
  destruct (0 <=? e) eqn:He; [rewrite Hx; tauto|].
  apply Z.leb_gt in He. cbn [valid_binary] in Hv.
  destruct W as [|p|p]; [| |lia].
  - (* W = 0 *)
    change (Prim2SF (f64_of_int 0)) with (S754_zero false).
    destruct s; [discriminate|]. intros _. cbn [cond_Zopp].
    destruct (Zpos m / 2 ^ (- e) =? 0) eqn:Hz; [reflexivity|].
    apply Z.eqb_neq in Hz.
    assert (Hq : 0 < Zpos m / 2 ^ (- e)).
    { assert (0 <= Zpos m / 2 ^ (- e)) by (apply Z.div_pos; [lia | apply Z.pow_pos_nonneg; lia]). lia. }
    destruct (Zpos m / 2 ^ (- e)) as [|q|q] eqn:Hq'; try lia.
    rewrite Prim2SF_of_int_pos; [reflexivity|].
    rewrite <- Hq'. destruct (digits2_pos_bounds m) as [_ Hm].
    apply bounded_canonical in Hv. destruct Hv as [Hc _].
    assert (Zpos m < 2 ^ 53).
    { eapply Z.lt_le_trans; [exact Hm|]. apply Z.pow_le_mono_r; lia. }
    assert (Zpos m / 2 ^ (- e) <= Zpos m); [|lia].
    apply Z.div_le_upper_bound; [apply Z.pow_pos_nonneg; lia|].
    assert (1 <= 2 ^ (- e)) by (apply (Z.pow_le_mono_r 2 0); lia). nia.
  - rewrite Prim2SF_of_int_pos by lia.
    destruct s; [discriminate|]. intros Hle. cbn [cond_Zopp].
    assert (Hdp : Zpos (digits2_pos p) <= 53) by (apply digits2_pos_le; lia).
    pose proof (SFleb_canon_value p m e Hdp Hv He Hle) as Hval.
    assert (Hpow : 0 < 2 ^ (- e)) by (apply Z.pow_pos_nonneg; lia).
    assert (Hq : Zpos p <= Zpos m / 2 ^ (- e)) by (apply Z.div_le_lower_bound; lia).
    destruct (Zpos m / 2 ^ (- e) =? 0) eqn:Hz; [apply Z.eqb_eq in Hz; lia|].
    destruct (Zpos m / 2 ^ (- e)) as [|q|q] eqn:Hq'; try lia.
    assert (Hq53 : Zpos q < 2 ^ 53).
    { rewrite <- Hq'. destruct (digits2_pos_bounds m) as [_ Hm].
      apply bounded_canonical in Hv. destruct Hv as [Hc _].
      assert (Zpos m < 2 ^ 53).
      { eapply Z.lt_le_trans; [exact Hm|]. apply Z.pow_le_mono_r; lia. }
      assert (Zpos m / 2 ^ (- e) <= Zpos m); [|lia].
      apply Z.div_le_upper_bound; [lia|].
      assert (1 <= 2 ^ (- e)) by (apply (Z.pow_le_mono_r 2 0); lia). nia. }
    rewrite Prim2SF_of_int_pos by exact Hq53.
    apply SFleb_canon_mono; [lia | apply digits2_pos_le; lia].
Qed.

(** A negative coordinate has a negative floor, which is below every
    resolution: the clipping passes keep it. *)
Lemma f64_floor_neg x W :
  0 <= W < 2 ^ 53 ->
  PrimFloat.ltb x (f64_of_int 0) = true -> f64_ge (f64_floor x) (f64_of_int W) = false.
Proof.
  intros HW. unfold f64_ge. rewrite FloatAxioms.ltb_spec, FloatAxioms.leb_spec.
  change (Prim2SF (f64_of_int 0)) with (S754_zero false).
  assert (HWs : exists w, Prim2SF (f64_of_int W) = w /\
                (w = S754_zero false \/ exists m e, w = S754_finite false m e)).
  { destruct W as [|p|p]; [| |lia].
    - exists (S754_zero false). split; [reflexivity | left; reflexivity].
    - eexists. split; [apply Prim2SF_of_int_pos; lia | right; eauto]. }
  destruct HWs as (w & -> & Hw).
  pose proof (Prim2SF_valid x) as Hv.
  unfold f64_floor.
  destruct (Prim2SF x) as [sx|sx| |s m e] eqn:Hx; try discriminate.
  - destruct sx; [|discriminate]. intros _. rewrite Hx.
    destruct Hw as [-> | (mw & ew & ->)]; reflexivity.
  - destruct s; [|discriminate]. intros _.
    destruct (0 <=? e) eqn:He.
    + rewrite Hx. destruct Hw as [-> | (mw & ew & ->)]; reflexivity.
    + apply Z.leb_gt in He. cbn [cond_Zopp valid_binary Z.opp] in *.
      assert (Hpow : 0 < 2 ^ (- e)) by (apply Z.pow_pos_nonneg; lia).
      assert (Hq : Zneg m / 2 ^ (- e) < 0) by (apply Z.div_lt_upper_bound; lia).
      assert (Hq2 : - Zpos m <= Zneg m / 2 ^ (- e)).
      { apply Z.div_le_lower_bound; [lia|].
        assert (1 <= 2 ^ (- e)) by (apply (Z.pow_le_mono_r 2 0); lia). nia. }
      destruct (Zneg m / 2 ^ (- e)) as [|q|q] eqn:Hq'; try lia.
      cbn [Z.eqb].
      rewrite Prim2SF_of_int_neg.
      * destruct Hw as [-> | (mw & ew & ->)]; reflexivity.
      * destruct (digits2_pos_bounds m) as [_ Hm].
        apply bounded_canonical in Hv. destruct Hv as [Hc _].
        assert (Zpos m < 2 ^ 53); [|lia].
        eapply Z.lt_le_trans; [exact Hm|]. apply Z.pow_le_mono_r; lia.
Qed.

Lemma div_eucl_pair a b : Z.div_eucl a b = (a / b, a mod b).
Proof. unfold Z.div, Z.modulo. destruct (Z.div_eucl a b). reflexivity. Qed.

Lemma SFdiv_self s m e :
  SFdiv prec emax (S754_finite s m e) (S754_finite s m e) = Prim2SF 1%float.
Proof.
  unfold SFdiv, SFdiv_core_binary.
  rewrite Z.sub_diag, Z.sub_diag.
  change (Z.min (SpecFloat.fexp prec emax 0) 0) with (-53).
  change (0 - -53) with 53.
  cbv iota beta.
  rewrite Z.shiftl_mul_pow2 by lia.
  rewrite div_eucl_pair.
  rewrite (Z.mul_comm (Zpos m)), Z.div_mul, Z.mod_mul by lia.
  assert (Hloc : new_location (Zpos m) 0 = loc_Exact).
  { unfold new_location, new_location_even, new_location_odd.
    destruct (Z.even (Zpos m)); reflexivity. }
  rewrite Hloc.
  destruct s; vm_compute; reflexivity.
Qed.

(** A finite non-zero float divided by itself is exactly 1. *)
Lemma f64_div_self x : f64_normal x = true -> PrimFloat.div x x = 1%float.
Proof.
  unfold f64_normal. intros Hx.
  apply Prim2SF_inj. rewrite FloatAxioms.div_spec. unfold SF64div.
  destruct (Prim2SF x) as [ | | |s m e]; try discriminate.
  apply SFdiv_self.
Qed.

(** * The claims *)

(** ** C3: the coordinate mapping *)

(** C3.  For every sample sequence, every I-range and Q-range and every
    resolution, the coordinate arrays both renderers compute (lines 26-27 and
    82-83) are, sample by sample, the pair [pixel_coord] of Section 4.1:
    [y = (i + |i_min|) * H / (i_max - i_min)] and
    [x = -(q - q_max) * W / (q_max - q_min)], evaluated in the program's
    arithmetic in that order of operations.  Nothing is assumed of the ranges,
    so no case is made for [i_min >= 0]. *)
Theorem coordinate_mapping {F : Type} {A : Float64 F}
  (symbols : list (F * F)) (i_range q_range : F * F) (img_resolution : Z * Z) :
  grayscale_transform symbols i_range q_range img_resolution
  = List.split (map (pixel_coord i_range q_range img_resolution) symbols)
  /\ enhanced_transform symbols i_range q_range img_resolution
     = List.split (map (pixel_coord i_range q_range img_resolution) symbols).
Proof.
  destruct i_range as [i_min i_max], q_range as [q_min q_max],
    img_resolution as [W H].
  unfold grayscale_transform, enhanced_transform. cbn [fst snd].
  rewrite split_fst_snd, !map_map.
  assert (Hx : forall s : F * F,
             fst (pixel_coord (i_min, i_max) (q_min, q_max) (W, H) s)
             = ((- (snd s - q_max)) * of_int W / (q_max - q_min))%f64)
    by (intros [i q]; reflexivity).
  assert (Hy : forall s : F * F,
             snd (pixel_coord (i_min, i_max) (q_min, q_max) (W, H) s)
             = ((fst s + fabs i_min) * of_int H / (i_max - i_min))%f64)
    by (intros [i q]; reflexivity).
  rewrite (map_ext _ _ Hx), (map_ext _ _ Hy).
  split; reflexivity.
Qed.

(** ** C7: the kernel sum *)



(** ** C10: the 16-bit counters *)

(** C10.  In the binning variant, whenever the count grid is produced, the
    count stored for a pixel is the number of kept samples whose index
    denotes that pixel, modulo [2^16]: the accumulator is a [uint16] that
    wraps around, it neither saturates nor fails. *)
Theorem count_wraps_mod_65536 {F : Type} {A : Float64 F}
  (symbols : list (F * F)) (i_range q_range : F * F) (W H : Z)
  (grid : list (list Z)) (x y : Z) :
  bin_grid (W, H)
    (grayscale_clip (W, H) (grayscale_transform symbols i_range q_range (W, H)))
  = Ok grid ->
  0 <= x < W -> 0 <= y < H ->
  grid_get 0 grid (Z.to_nat x) (Z.to_nat y)
  = Z.of_nat
      (hits (W, H)
         (map (grayscale_index i_range q_range (W, H))
            (filter (grayscale_keeps i_range q_range (W, H)) symbols))
         (Z.to_nat x) (Z.to_nat y))
    mod 65536.
Proof.
  rewrite grayscale_clip_kept. intros Hg Hx Hy.
  apply (bin_grid_get W H _ grid); [exact Hg | lia | lia].
Qed.

(** Three samples in the upper-left pixel of a 2 x 2 image. *)
Lemma count_wraps_mod_65536_witness :
  bin_grid (2, 2)
    (grayscale_clip (A := numpy) (2, 2)
       (grayscale_transform [(0.25, 1.75); (0.5, 2); (0.125, 1.5)]%float
          (0, 2)%float (0, 2)%float (2, 2)))
  = Ok [[3; 0]; [0; 0]]
  /\ grid_get 0 [[3; 0]; [0; 0]] 0 0
     = Z.of_nat
         (hits (2, 2)
            (map (grayscale_index (A := numpy) (0, 2)%float (0, 2)%float (2, 2))
               (filter (grayscale_keeps (0, 2)%float (0, 2)%float (2, 2))
                  [(0.25, 1.75); (0.5, 2); (0.125, 1.5)]%float))
            0 0)
       mod 65536.
Proof.
  assert (Hg : bin_grid (2, 2)
                 (grayscale_clip (A := numpy) (2, 2)
                    (grayscale_transform [(0.25, 1.75); (0.5, 2); (0.125, 1.5)]%float
                       (0, 2)%float (0, 2)%float (2, 2)))
               = Ok [[3; 0]; [0; 0]]) by (vm_compute; reflexivity).
  split; [exact Hg|].
  exact (count_wraps_mod_65536 (A := numpy)
           [(0.25, 1.75); (0.5, 2); (0.125, 1.5)]%float (0, 2)%float (0, 2)%float
           2 2 [[3; 0]; [0; 0]] 0 0 Hg ltac:(lia) ltac:(lia)).
Defined.

(** 65536 index pairs on the only pixel bring its counter back to 0, and one
    more to 1 (also through the negative index [-1], which denotes the same
    pixel). *)
Example uint16_counter_wraps :
  bin_grid (1, 1) (repeat 0 (Z.to_nat 65536), repeat 0 (Z.to_nat 65536)) = Ok [[0]]
  /\ bin_grid (1, 1) (repeat 0 (Z.to_nat 65537), repeat (-1) (Z.to_nat 65537))
     = Ok [[1]].
Proof.
  split; vm_compute; reflexivity.
Qed.

(** ** C8: the order of the samples *)




(** ** C9: scaling the power *)




(** Nor is the raster safe from overflow: with [power = 2^1023] the only
    pixel is 255, with [2 * power], which is [infinity], its cell is
    [infinity], the normalized value [infinity / infinity] is NaN, and the
    pixel is the cast of NaN. *)
Example power_scaling_overflows :
  enhancedGrayscale (A := numpy) [(0.5, 0.5)%float] (0, 1)%float (0, 1)%float (1, 1)
    0x1p+1023%float 1%float
  = Ok [[255]]
  /\ enhancedGrayscale (A := numpy) [(0.5, 0.5)%float] (0, 1)%float (0, 1)%float (1, 1)
       (2 * 0x1p+1023)%float 1%float
     = Ok [[0]].
Proof.
  split; vm_compute; reflexivity.
Qed.

(** ** Normalisation *)

Lemma fold_max_ge (cs : list Z) (c : Z) :
  c <= fold_left Z.max cs c /\ forall a, In a cs -> a <= fold_left Z.max cs c.
Proof.
  revert c. induction cs as [|b cs IH]; intros c; cbn [fold_left].
  - split; [lia | intros a []].
  - destruct (IH (Z.max c b)) as [H1 H2]. split; [lia|].
    intros a [<- | Ha]; [lia | apply H2, Ha].
Qed.

Lemma fold_max_In (cs : list Z) (c : Z) : In (fold_left Z.max cs c) (c :: cs).
Proof.
  revert c. induction cs as [|b cs IH]; intros c; cbn [fold_left].
  - left. reflexivity.
  - destruct (IH (Z.max c b)) as [H | H].
    + destruct (Z.max_spec c b) as [[_ Hm] | [_ Hm]].
      * right. left. rewrite <- H. symmetry. exact Hm.
      * left. rewrite <- H. symmetry. exact Hm.
    + right. right. exact H.
Qed.

Lemma np_max_int_spec (grid : list (list Z)) (m : Z) :
  np_max_int grid = Ok m ->
  In m (concat grid) /\ forall a, In a (concat grid) -> a <= m.
Proof.
  unfold np_max_int. destruct (concat grid) as [|c cs]; [discriminate|].
  intros Hm. injection Hm as <-. split.
  - apply fold_max_In.
  - intros a [<- | Ha].
    + apply (proj1 (fold_max_ge cs c)).
    + apply (proj2 (fold_max_ge cs c)), Ha.
Qed.

Lemma concat_shaped_nonempty {A : Type} (W H : nat) (grid : list (list A)) :
  shaped W H grid -> (0 < W)%nat -> (0 < H)%nat -> concat grid <> [].
Proof.
  intros [Hlen Hrows] HW HH.
  destruct grid as [|row grid]; [simpl in Hlen; lia|].
  inversion Hrows as [|? ? Hrow _]. subst.
  destruct row as [|c row]; [simpl in HH; lia|]. discriminate.
Qed.

Lemma map_np_zeros {A B : Type} (f : A -> B) (zero : A) (W H : Z) :
  map (map f) (np_zeros zero W H) = np_zeros (f zero) W H.
Proof.
  unfold np_zeros. rewrite map_repeat, map_repeat. reflexivity.
Qed.

Lemma fold_left_constant {A : Type} (f : A -> A -> A) (z : A) (cs : list A) :
  f z z = z -> (forall a, In a cs -> a = z) -> fold_left f cs z = z.
Proof.
  intros Hz. induction cs as [|c cs IH]; intros Hcs; cbn [fold_left].
  - reflexivity.
  - rewrite (Hcs c (or_introl eq_refl)), Hz.
    apply IH. intros a Ha. apply Hcs. right. exact Ha.
Qed.

Lemma In_concat_np_zeros {A : Type} (zero a : A) (W H : Z) :
  In a (concat (np_zeros zero W H)) -> a = zero.
Proof.
  intros Ha. apply in_concat in Ha. destruct Ha as (row & Hrow & Ha).
  apply repeat_spec in Hrow. subst row. apply repeat_spec in Ha. exact Ha.
Qed.

Section Float64Normalisation.

Variable exp : float -> float.
Variable pol : cast_policy.

Lemma f64_to_uint8_range (v : float) : 0 <= f64_to_uint8 pol v <= 255.
Proof.
  unfold f64_to_uint8.
  destruct (f64_trunc v) as [z|].
  - destruct ((0 <=? z) && (z <=? 255)) eqn:Hz.
    + apply andb_true_iff in Hz. destruct Hz as [H0 H1].
      apply Z.leb_le in H0, H1. lia.
    + pose proof (Z.mod_pos_bound (invalid_uint8 pol v) 256). lia.
  - pose proof (Z.mod_pos_bound (invalid_uint8 pol v) 256). lia.
Qed.

Lemma f64_normal_of_int (m : Z) : 0 < m < 2 ^ 53 -> f64_normal (f64_of_int m) = true.
Proof.
  intros Hm. destruct m as [|p|p]; try lia.
  unfold f64_normal. rewrite Prim2SF_of_int_pos by lia. reflexivity.
Qed.

(** The cell that holds the maximum is rendered at 255. *)
Lemma f64_full_scale (M : float) :
  f64_normal M = true ->
  PrimFloat.mul (PrimFloat.div M M) (f64_of_int 255) = 255%float.
Proof.
  intros HM. rewrite (f64_div_self M HM). vm_compute. reflexivity.
Qed.

Lemma f64_positive_finite_normal (M : float) :
  PrimFloat.ltb 0 M = true -> PrimFloat.ltb M infinity = true ->
  f64_normal M = true.
Proof.
  rewrite !FloatAxioms.ltb_spec. unfold f64_normal.
  change (Prim2SF 0) with (S754_zero false).
  change (Prim2SF infinity) with (S754_infinity false).
  destruct (Prim2SF M) as [s|s| |s m e]; try discriminate.
  - destruct s; discriminate.
  - reflexivity.
Qed.

Lemma f64_maximum_cases (a b : float) : f64_maximum a b = a \/ f64_maximum a b = b.
Proof.
  unfold f64_maximum. destruct (PrimFloat.leb b a || PrimFloat.is_nan a); auto.
Qed.

Lemma fold_f64_maximum_In (cs : list float) (c : float) :
  In (fold_left f64_maximum cs c) (c :: cs).
Proof.
  revert c. induction cs as [|b cs IH]; intros c; cbn [fold_left].
  - left. reflexivity.
  - destruct (IH (f64_maximum c b)) as [H | H].
    + destruct (f64_maximum_cases c b) as [Hm | Hm].
      * left. rewrite <- H. symmetry. exact Hm.
      * right. left. rewrite <- H. symmetry. exact Hm.
    + right. right. exact H.
Qed.

Lemma np_max_In (grid : list (list float)) (M : float) :
  np_max (A := f64 exp pol) grid = Ok M -> In M (concat grid).
Proof.
  unfold np_max. destruct (concat grid) as [|c cs]; [discriminate|].
  intros HM. injection HM as <-. apply fold_f64_maximum_In.
Qed.

(** The raster of the binning variant when the largest count is positive. *)
Lemma grayscale_img_grid_positive (W H : Z) (idx : list (Z * Z))
  (grid : list (list Z)) (m : Z) :
  bin_grid (W, H) (List.split idx) = Ok grid ->
  np_max_int grid = Ok m -> 0 < m ->
  exists img,
    grayscale_img_grid (A := f64 exp pol) grid = Ok img
    /\ (forall x y, (x < Z.to_nat W)%nat -> (y < Z.to_nat H)%nat ->
          grid_get 0 img x y
          = f64_to_uint8 pol
              (PrimFloat.mul
                 (PrimFloat.div (f64_of_int (grid_get 0 grid x y)) (f64_of_int m))
                 (f64_of_int 255))
          /\ 0 <= grid_get 0 img x y <= 255)
    /\ (exists x y, (x < Z.to_nat W)%nat /\ (y < Z.to_nat H)%nat
                    /\ grid_get 0 img x y = 255).
Proof.
  intros Hg Hm Hpos.
  pose proof (shaped_bin_grid W H idx grid Hg) as Hs.
  unfold grayscale_img_grid. rewrite Hm. cbn [bind].
  cbn [of_int fdiv fmul to_uint8 f64]. rewrite map_map.
  rewrite (map_ext _ (map (fun c => f64_to_uint8 pol
                                      (PrimFloat.mul
                                         (PrimFloat.div (f64_of_int c) (f64_of_int m))
                                         (f64_of_int 255)))))
    by (intros row; rewrite map_map; reflexivity).
  eexists. split; [reflexivity|].
  assert (Hcell : forall x y, (x < Z.to_nat W)%nat -> (y < Z.to_nat H)%nat ->
            grid_get 0
              (map (map (fun c => f64_to_uint8 pol
                                    (PrimFloat.mul
                                       (PrimFloat.div (f64_of_int c) (f64_of_int m))
                                       (f64_of_int 255))))
                 grid) x y
            = f64_to_uint8 pol
                (PrimFloat.mul
                   (PrimFloat.div (f64_of_int (grid_get 0 grid x y)) (f64_of_int m))
                   (f64_of_int 255))).
  { intros x y Hx Hy.
    exact (grid_get_map (Z.to_nat W) (Z.to_nat H)
             (fun c : Z =>
                f64_to_uint8 pol
                  (PrimFloat.mul (PrimFloat.div (f64_of_int c) (f64_of_int m))
                     (f64_of_int 255)))
             grid x y 0 0 Hs Hx Hy). }
  split.
  - intros x y Hx Hy. rewrite (Hcell x y Hx Hy).
    split; [reflexivity | apply f64_to_uint8_range].
  - apply np_max_int_spec in Hm. destruct Hm as [Hin _].
    apply (In_concat_grid_get (Z.to_nat W) (Z.to_nat H) grid m 0 Hs) in Hin.
    destruct Hin as (x & y & Hx & Hy & Hxy).
    exists x, y. split; [exact Hx|]. split; [exact Hy|].
    rewrite (Hcell x y Hx Hy), Hxy.
    assert (Hm53 : 0 < m < 2 ^ 53).
    { split; [exact Hpos|]. rewrite <- Hxy.
      rewrite (bin_grid_get W H idx grid x y Hg Hx Hy).
      pose proof (Z.mod_pos_bound (Z.of_nat (hits (W, H) idx x y)) 65536). lia. }
    rewrite (f64_full_scale _ (f64_normal_of_int m Hm53)).
    vm_compute. reflexivity.
Qed.

(** The raster of the kernel variant when the largest cell is finite and not
    zero. *)
Lemma enhanced_img_grid_normal (W H : nat) (grid : list (list float)) (M : float) :
  shaped W H grid ->
  np_max (A := f64 exp pol) grid = Ok M -> f64_normal M = true ->
  exists img,
    enhanced_img_grid (A := f64 exp pol) grid = Ok img
    /\ (forall x y, (x < W)%nat -> (y < H)%nat ->
          grid_get 0 img x y
          = f64_to_uint8 pol
              (f64_floor
                 (PrimFloat.mul (PrimFloat.div (grid_get 0%float grid x y) M)
                    (f64_of_int 255)))
          /\ 0 <= grid_get 0 img x y <= 255)
    /\ (exists x y, (x < W)%nat /\ (y < H)%nat /\ grid_get 0 img x y = 255).
Proof.
  intros Hs HM Hnormal.
  unfold enhanced_img_grid. rewrite HM. cbn [bind].
  cbn [of_int fdiv fmul to_uint8 ffloor f64]. rewrite !map_map.
  rewrite (map_ext _ (map (fun c => f64_to_uint8 pol
                                      (f64_floor
                                         (PrimFloat.mul (PrimFloat.div c M)
                                            (f64_of_int 255))))))
    by (intros row; rewrite !map_map; reflexivity).
  eexists. split; [reflexivity|].
  assert (Hcell : forall x y, (x < W)%nat -> (y < H)%nat ->
            grid_get 0
              (map (map (fun c => f64_to_uint8 pol
                                    (f64_floor
                                       (PrimFloat.mul (PrimFloat.div c M)
                                          (f64_of_int 255)))))
                 grid) x y
            = f64_to_uint8 pol
                (f64_floor
                   (PrimFloat.mul (PrimFloat.div (grid_get 0%float grid x y) M)
                      (f64_of_int 255)))).
  { intros x y Hx Hy.
    exact (grid_get_map W H
             (fun c : float =>
                f64_to_uint8 pol
                  (f64_floor
                     (PrimFloat.mul (PrimFloat.div c M) (f64_of_int 255))))
             grid x y 0%float 0 Hs Hx Hy). }
  split.
  - intros x y Hx Hy. rewrite (Hcell x y Hx Hy).
    split; [reflexivity | apply f64_to_uint8_range].
  - apply np_max_In in HM.
    apply (In_concat_grid_get W H grid M 0%float Hs) in HM.
    destruct HM as (x & y & Hx & Hy & Hxy).
    exists x, y. split; [exact Hx|]. split; [exact Hy|].
    rewrite (Hcell x y Hx Hy), Hxy, (f64_full_scale M Hnormal).
    vm_compute. reflexivity.
Qed.

End Float64Normalisation.

(** ** Grids without a positive cell *)

Lemma bin_grid_all_zero (W H : Z) (idx : list (Z * Z)) (grid : list (list Z)) :
  bin_grid (W, H) (List.split idx) = Ok grid -> np_max_int grid = Ok 0 ->
  grid = np_zeros 0 W H.
Proof.
  intros Hg Hm.
  pose proof (shaped_bin_grid W H idx grid Hg) as Hs.
  apply np_max_int_spec in Hm. destruct Hm as [_ Hle].
  apply (grid_ext (Z.to_nat W) (Z.to_nat H) grid (np_zeros 0 W H) 0).
  - exact Hs.
  - apply shaped_np_zeros.
  - intros x y Hx Hy. rewrite grid_get_np_zeros.
    pose proof (Hle _ (grid_get_In_concat _ _ grid x y 0 Hs Hx Hy)) as Hup.
    rewrite (bin_grid_get W H idx grid x y Hg Hx Hy) in *.
    pose proof (Z.mod_pos_bound (Z.of_nat (hits (W, H) idx x y)) 65536). lia.
Qed.

Lemma np_max_int_np_zeros (W H : Z) :
  0 < W -> 0 < H -> np_max_int (np_zeros 0 W H) = Ok 0.
Proof.
  intros HW HH. unfold np_max_int.
  destruct (concat (np_zeros 0 W H)) as [|c cs] eqn:Hc.
  - exfalso. revert Hc.
    apply (concat_shaped_nonempty (Z.to_nat W) (Z.to_nat H));
      [apply shaped_np_zeros | lia | lia].
  - assert (Hall : forall a, In a (c :: cs) -> a = 0).
    { intros a Ha. rewrite <- Hc in Ha. apply (In_concat_np_zeros 0 a W H Ha). }
    rewrite (Hall c (or_introl eq_refl)). f_equal.
    apply fold_left_constant; [reflexivity|].
    intros a Ha. apply Hall. right. exact Ha.
Qed.

Lemma bin_grid_no_samples (W H : Z) :
  0 <= W -> 0 <= H -> bin_grid (W, H) ([], []) = Ok (np_zeros 0 W H).
Proof.
  intros HW HH. unfold bin_grid.
  replace (W <? 0) with false by (symmetry; apply Z.ltb_ge; lia).
  replace (H <? 0) with false by (symmetry; apply Z.ltb_ge; lia).
  reflexivity.
Qed.

Lemma power_grid_no_samples {F : Type} {A : Float64 F} (W H : Z) (power decay : F) :
  0 <= W -> 0 <= H ->
  power_grid (W, H) power decay ([], []) = Ok (np_zeros (of_int 0) W H).
Proof.
  intros HW HH.
  change (@nil F, @nil F) with (List.split (@nil (F * F))).
  rewrite power_grid_pixel_loop.
  replace (W <? 0) with false by (symmetry; apply Z.ltb_ge; lia).
  replace (H <? 0) with false by (symmetry; apply Z.ltb_ge; lia).
  cbn [orb]. f_equal.
  apply (grid_ext (Z.to_nat W) (Z.to_nat H) _ _ (of_int 0)).
  - apply shaped_pixel_loop, shaped_np_zeros.
  - apply shaped_np_zeros.
  - intros x y Hx Hy.
    rewrite (pixel_loop_get power decay (Z.to_nat W) (Z.to_nat H))
      by (try apply shaped_np_zeros; lia).
    destruct ((x <? Z.to_nat W)%nat && (y <? Z.to_nat H)%nat); reflexivity.
Qed.

Section Float64ZeroGrid.

Variable exp : float -> float.
Variable pol : cast_policy.

Lemma grayscale_img_grid_np_zeros (W H : Z) :
  0 < W -> 0 < H ->
  grayscale_img_grid (A := f64 exp pol) (np_zeros 0 W H)
  = Ok (np_zeros (f64_to_uint8 pol nan) W H).
Proof.
  intros HW HH. unfold grayscale_img_grid.
  rewrite (np_max_int_np_zeros W H HW HH). cbn [bind].
  rewrite !map_np_zeros. reflexivity.
Qed.

Lemma enhanced_img_grid_np_zeros (W H : Z) :
  0 < W -> 0 < H ->
  enhanced_img_grid (A := f64 exp pol) (np_zeros 0%float W H)
  = Ok (np_zeros (f64_to_uint8 pol nan) W H).
Proof.
  intros HW HH. unfold enhanced_img_grid, np_max.
  destruct (concat (np_zeros 0%float W H)) as [|c cs] eqn:Hc.
  - exfalso. revert Hc.
    apply (concat_shaped_nonempty (Z.to_nat W) (Z.to_nat H));
      [apply shaped_np_zeros | lia | lia].
  - assert (Hall : forall a, In a (c :: cs) -> a = 0%float).
    { intros a Ha. rewrite <- Hc in Ha. apply (In_concat_np_zeros 0%float a W H Ha). }
    rewrite (Hall c (or_introl eq_refl)).
    rewrite (fold_left_constant (fmaximum (Float64 := f64 exp pol)) 0%float cs)
      by (try reflexivity; intros a Ha; apply Hall; right; exact Ha).
    cbn [bind]. rewrite !map_np_zeros. reflexivity.
Qed.

End Float64ZeroGrid.

(** ** C1: a grid whose maximum is zero *)

(** C1, as the code has it.  No error is raised when the density grid has no
    positive cell: numpy divides [0 / 0] into NaN (a RuntimeWarning, not an
    exception), and an image is written whose every pixel is the [uint8] cast
    of NaN.  For a positive resolution this holds in the binning variant
    whenever the largest count is zero, in the kernel variant whenever no
    sample survives the filter, and in both for the empty sample sequence. *)
Theorem zero_grid_is_rendered (exp : float -> float) (pol : cast_policy)
  (symbols : list (float * float)) (i_range q_range : float * float) (W H : Z)
  (power decay : float) :
  0 < W -> 0 < H ->
  (forall grid,
      bin_grid (W, H)
        (grayscale_clip (A := f64 exp pol) (W, H)
           (grayscale_transform (A := f64 exp pol) symbols i_range q_range (W, H)))
      = Ok grid ->
      np_max_int grid = Ok 0 ->
      grayscale (A := f64 exp pol) symbols i_range q_range (W, H)
      = Ok (np_zeros (f64_to_uint8 pol nan) W H))
  /\ (enhanced_clip (A := f64 exp pol) (W, H)
        (enhanced_transform (A := f64 exp pol) symbols i_range q_range (W, H))
      = ([], []) ->
      enhancedGrayscale (A := f64 exp pol) symbols i_range q_range (W, H) power decay
      = Ok (np_zeros (f64_to_uint8 pol nan) W H))
  /\ grayscale (A := f64 exp pol) [] i_range q_range (W, H)
     = Ok (np_zeros (f64_to_uint8 pol nan) W H)
  /\ enhancedGrayscale (A := f64 exp pol) [] i_range q_range (W, H) power decay
     = Ok (np_zeros (f64_to_uint8 pol nan) W H).
Proof.
  intros HW HH.
  assert (Hker : forall kept,
             kept = ([], []) ->
             grid <- power_grid (A := f64 exp pol) (W, H) power decay kept ;;
             enhanced_img_grid (A := f64 exp pol) grid
             = Ok (np_zeros (f64_to_uint8 pol nan) W H)).
  { intros kept ->. rewrite power_grid_no_samples by lia. cbn [bind].
    apply enhanced_img_grid_np_zeros; assumption. }
  split; [|split; [|split]].
  - intros grid Hg Hm. unfold grayscale. rewrite Hg. cbn [bind].
    rewrite grayscale_clip_kept in Hg.
    rewrite (bin_grid_all_zero W H _ grid Hg Hm).
    apply grayscale_img_grid_np_zeros; assumption.
  - intros Hkept. unfold enhancedGrayscale. apply Hker, Hkept.
  - unfold grayscale.
    change (grayscale_clip (A := f64 exp pol) (W, H)
              (grayscale_transform (A := f64 exp pol) [] i_range q_range (W, H)))
      with (@nil Z, @nil Z).
    rewrite bin_grid_no_samples by lia. cbn [bind].
    apply grayscale_img_grid_np_zeros; assumption.
  - unfold enhancedGrayscale. apply Hker. reflexivity.
Qed.

(** A 2 x 2 image of one sample that the filter removes (binning: its count
    grid is all zero) and of no sample at all, on x86-64, where the cast of
    NaN is 0. *)
Lemma zero_grid_is_rendered_witness :
  grayscale (A := numpy) [(9, 0)%float] (-7, 7)%float (-7, 7)%float (2, 2)
  = Ok [[0; 0]; [0; 0]]
  /\ enhancedGrayscale (A := numpy) [(9, 0)%float] (-7, 7)%float (-7, 7)%float (2, 2)
       1%float 1%float
     = Ok [[0; 0]; [0; 0]]
  /\ grayscale (A := numpy) [] (-7, 7)%float (-7, 7)%float (2, 2)
     = Ok [[0; 0]; [0; 0]]
  /\ enhancedGrayscale (A := numpy) [] (-7, 7)%float (-7, 7)%float (2, 2)
       1%float 1%float
     = Ok [[0; 0]; [0; 0]].
Proof.
  destruct (zero_grid_is_rendered exp_table x86_64 [(9, 0)%float]
              (-7, 7)%float (-7, 7)%float 2 2 1%float 1%float
              ltac:(lia) ltac:(lia)) as (Hbin & Hker & Hbin0 & Hker0).
  split; [|split; [|split]].
  - exact (Hbin [[0; 0]; [0; 0]] ltac:(vm_compute; reflexivity)
             ltac:(vm_compute; reflexivity)).
  - exact (Hker ltac:(vm_compute; reflexivity)).
  - exact Hbin0.
  - exact Hker0.
Defined.

(** The empty sample sequence is rendered, by both variants, as an all-zero
    image on x86-64; nothing is raised. *)
Lemma empty_input_is_rendered :
  grayscale (A := numpy) [] (-7, 7)%float (-7, 7)%float (2, 2)
  = Ok [[0; 0]; [0; 0]]
  /\ enhancedGrayscale (A := numpy) [] (-7, 7)%float (-7, 7)%float (2, 2)
       1%float 1%float
     = Ok [[0; 0]; [0; 0]].
Proof.
  split; vm_compute; reflexivity.
Qed.

(** ** C6: the normalisation law *)

(** C6, as the code has it.  Binning variant: when the count grid is produced
    and its largest count [m] is positive, the image is written; every pixel
    is the [uint8] cast (truncation) of the float64 value [(count / m) * 255],
    lies in [0, 255], and a pixel holding the largest count is exactly 255.
    Kernel variant: when the largest cell [M] of the power grid is positive
    and finite, the image is written; every pixel is the [uint8] cast of
    [floor((cell / M) * 255)], lies in [0, 255], and a pixel holding the
    largest cell is exactly 255.  In both the maximum of the raster is 255. *)
Theorem normalization_law (exp : float -> float) (pol : cast_policy)
  (symbols : list (float * float)) (i_range q_range : float * float) (W H : Z)
  (power decay : float) :
  (forall grid m,
      bin_grid (W, H)
        (grayscale_clip (A := f64 exp pol) (W, H)
           (grayscale_transform (A := f64 exp pol) symbols i_range q_range (W, H)))
      = Ok grid ->
      np_max_int grid = Ok m -> 0 < m ->
      exists img,
        grayscale (A := f64 exp pol) symbols i_range q_range (W, H) = Ok img
        /\ (forall x y, (x < Z.to_nat W)%nat -> (y < Z.to_nat H)%nat ->
              grid_get 0 img x y
              = f64_to_uint8 pol
                  (f64_of_int (grid_get 0%Z grid x y) / f64_of_int m
                   * f64_of_int 255)%float
              /\ 0 <= grid_get 0 img x y <= 255)
        /\ (exists x y, (x < Z.to_nat W)%nat /\ (y < Z.to_nat H)%nat
                        /\ grid_get 0 img x y = 255))
  /\ (forall grid M,
      power_grid (A := f64 exp pol) (W, H) power decay
        (enhanced_clip (A := f64 exp pol) (W, H)
           (enhanced_transform (A := f64 exp pol) symbols i_range q_range (W, H)))
      = Ok grid ->
      np_max (A := f64 exp pol) grid = Ok M ->
      PrimFloat.ltb 0 M = true -> PrimFloat.ltb M infinity = true ->
      exists img,
        enhancedGrayscale (A := f64 exp pol) symbols i_range q_range (W, H)
          power decay = Ok img
        /\ (forall x y, (x < Z.to_nat W)%nat -> (y < Z.to_nat H)%nat ->
              grid_get 0 img x y
              = f64_to_uint8 pol
                  (f64_floor (grid_get 0%float grid x y / M * f64_of_int 255)%float)
              /\ 0 <= grid_get 0 img x y <= 255)
        /\ (exists x y, (x < Z.to_nat W)%nat /\ (y < Z.to_nat H)%nat
                        /\ grid_get 0 img x y = 255)).
Proof.
  split.
  - intros grid m Hg Hm Hpos. unfold grayscale. rewrite Hg. cbn [bind].
    rewrite grayscale_clip_kept in Hg.
    exact (grayscale_img_grid_positive exp pol W H _ grid m Hg Hm Hpos).
  - intros grid M Hg HM Hpos Hfin. unfold enhancedGrayscale. rewrite Hg. cbn [bind].
    rewrite enhanced_clip_kept in Hg.
    apply (enhanced_img_grid_normal exp pol (Z.to_nat W) (Z.to_nat H)).
    + exact (shaped_power_grid W H power decay _ grid Hg).
    + exact HM.
    + apply f64_positive_finite_normal; assumption.
Qed.

(** Binning: counts 2 and 1 in a 2 x 1 image give pixels 255 and 127.
    Kernel: two samples at the centre of the only pixel of a 1 x 1 image give
    the cell 2 and the pixel 255. *)
Lemma normalization_law_witness :
  (exists img,
      grayscale (A := numpy) [(0.5, 1.5); (0.5, 0.5); (0.25, 1.25)]%float
        (0, 1)%float (0, 2)%float (2, 1) = Ok img
      /\ grid_get 0 img 0 0 = 255
      /\ grid_get 0 img 1 0 = 127)
  /\ (exists img,
      enhancedGrayscale (A := numpy) [(0.5, 0.5); (0.5, 0.5)]%float
        (0, 1)%float (0, 1)%float (1, 1) 1%float 1%float = Ok img
      /\ grid_get 0 img 0 0 = 255).
Proof.
  destruct (normalization_law exp_table x86_64
              [(0.5, 1.5); (0.5, 0.5); (0.25, 1.25)]%float
              (0, 1)%float (0, 2)%float 2 1 1%float 1%float) as [Hbin _].
  destruct (normalization_law exp_table x86_64 [(0.5, 0.5); (0.5, 0.5)]%float
              (0, 1)%float (0, 1)%float 1 1 1%float 1%float) as [_ Hker].
  split.
  - destruct (Hbin [[2]; [1]] 2 ltac:(vm_compute; reflexivity)
                ltac:(vm_compute; reflexivity) ltac:(lia))
      as (img & Himg & Hcells & _).
    exists img. split; [exact Himg|]. split.
    + exact (proj1 (Hcells 0%nat 0%nat ltac:(vm_compute; lia) ltac:(vm_compute; lia))).
    + exact (proj1 (Hcells 1%nat 0%nat ltac:(vm_compute; lia) ltac:(vm_compute; lia))).
  - destruct (Hker [[2%float]] 2%float ltac:(vm_compute; reflexivity)
                ltac:(vm_compute; reflexivity) ltac:(vm_compute; reflexivity)
                ltac:(vm_compute; reflexivity))
      as (img & Himg & Hcells & _).
    exists img. split; [exact Himg|].
    exact (proj1 (Hcells 0%nat 0%nat ltac:(vm_compute; lia) ltac:(vm_compute; lia))).
Defined.

(** A positive largest cell is not enough in the kernel variant: two samples
    of [power = 2^1023] at the centre of the only pixel add up to
    [infinity], the normalized value [infinity / infinity] is NaN, and the
    pixel is the cast of NaN, 0 on x86-64, not 255. *)
Lemma normalization_overflows :
  power_grid (A := numpy) (1, 1) 0x1p+1023%float 1%float
    (enhanced_clip (1, 1)
       (enhanced_transform [(0.5, 0.5); (0.5, 0.5)]%float
          (0, 1)%float (0, 1)%float (1, 1)))
  = Ok [[infinity]]
  /\ PrimFloat.ltb 0 infinity = true
  /\ enhancedGrayscale (A := numpy) [(0.5, 0.5); (0.5, 0.5)]%float
       (0, 1)%float (0, 1)%float (1, 1) 0x1p+1023%float 1%float
     = Ok [[0]].
Proof.
  repeat split; vm_compute; reflexivity.
Qed.

(** In the binning variant the float64 value [(count / m) * 255] truncates to
    the integer [floor(255 * count / m)]: checked here for every largest
    count up to 300 and every count below it. *)
Example binning_floor_small :
  forallb (floor_agrees x86_64) (map Z.of_nat (seq 1 300)) = true.
Proof.
  vm_compute. reflexivity.
Qed.

(** ** C4: samples at or beyond the image *)

(** C4.  For resolutions below [2^53] (exactly representable in float64; no
    larger grid can be allocated), a sample whose mapped continuous
    coordinate satisfies [x >= W] or [y >= H] is removed by the clipping
    passes of both variants: with or without it the kept samples are the
    same, hence so are the count grid of the binning variant and the power
    grid of the kernel variant.  The sample adds nothing to any cell. *)
Theorem boundary_exclusion (exp : float -> float) (pol : cast_policy)
  (pre post : list (float * float)) (sample : float * float)
  (i_range q_range : float * float) (W H : Z) (power decay : float) :
  0 <= W < 2 ^ 53 -> 0 <= H < 2 ^ 53 ->
  beyond (A := f64 exp pol) i_range q_range (W, H) sample = true ->
  grayscale_clip (A := f64 exp pol) (W, H)
    (grayscale_transform (A := f64 exp pol) (pre ++ sample :: post)
       i_range q_range (W, H))
  = grayscale_clip (A := f64 exp pol) (W, H)
      (grayscale_transform (A := f64 exp pol) (pre ++ post) i_range q_range (W, H))
  /\ bin_grid (W, H)
       (grayscale_clip (A := f64 exp pol) (W, H)
          (grayscale_transform (A := f64 exp pol) (pre ++ sample :: post)
             i_range q_range (W, H)))
     = bin_grid (W, H)
         (grayscale_clip (A := f64 exp pol) (W, H)
            (grayscale_transform (A := f64 exp pol) (pre ++ post)
               i_range q_range (W, H)))
  /\ enhanced_clip (A := f64 exp pol) (W, H)
       (enhanced_transform (A := f64 exp pol) (pre ++ sample :: post)
          i_range q_range (W, H))
     = enhanced_clip (A := f64 exp pol) (W, H)
         (enhanced_transform (A := f64 exp pol) (pre ++ post) i_range q_range (W, H))
  /\ power_grid (A := f64 exp pol) (W, H) power decay
       (enhanced_clip (A := f64 exp pol) (W, H)
          (enhanced_transform (A := f64 exp pol) (pre ++ sample :: post)
             i_range q_range (W, H)))
     = power_grid (A := f64 exp pol) (W, H) power decay
         (enhanced_clip (A := f64 exp pol) (W, H)
            (enhanced_transform (A := f64 exp pol) (pre ++ post)
               i_range q_range (W, H))).
Proof.
  intros HW HH Hbeyond.
  assert (Hgs : grayscale_keeps (A := f64 exp pol) i_range q_range (W, H) sample
                = false).
  { revert Hbeyond. unfold beyond, grayscale_keeps.
    destruct (pixel_coord (A := f64 exp pol) i_range q_range (W, H) sample) as [x y].
    cbn [fst snd fge of_int ffloor f64]. intros Hb.
    apply orb_true_iff in Hb. destruct Hb as [Hx | Hy].
    - rewrite (f64_floor_ge x W HW Hx). reflexivity.
    - rewrite (f64_floor_ge y H HH Hy). apply andb_false_r. }
  assert (Heg : enhanced_keeps (A := f64 exp pol) i_range q_range (W, H) sample
                = false).
  { revert Hbeyond. unfold beyond, enhanced_keeps.
    destruct (pixel_coord (A := f64 exp pol) i_range q_range (W, H) sample) as [x y].
    intros Hb. apply orb_true_iff in Hb. destruct Hb as [-> | ->].
    - reflexivity.
    - apply andb_false_r. }
  assert (Hclip : grayscale_clip (A := f64 exp pol) (W, H)
                    (grayscale_transform (A := f64 exp pol) (pre ++ sample :: post)
                       i_range q_range (W, H))
                  = grayscale_clip (A := f64 exp pol) (W, H)
                      (grayscale_transform (A := f64 exp pol) (pre ++ post)
                         i_range q_range (W, H))).
  { rewrite !grayscale_clip_kept, !filter_app. cbn [filter]. rewrite Hgs.
    reflexivity. }
  assert (Heclip : enhanced_clip (A := f64 exp pol) (W, H)
                     (enhanced_transform (A := f64 exp pol) (pre ++ sample :: post)
                        i_range q_range (W, H))
                   = enhanced_clip (A := f64 exp pol) (W, H)
                       (enhanced_transform (A := f64 exp pol) (pre ++ post)
                          i_range q_range (W, H))).
  { rewrite !enhanced_clip_kept, !filter_app. cbn [filter]. rewrite Heg.
    reflexivity. }
  rewrite Hclip, Heclip. repeat split; reflexivity.
Qed.

(** [(8, 0)] maps to [y = 15 >= 14] in a 14 x 14 image of the ranges
    [(-7, 7)]: between two other samples it leaves no trace. *)
Lemma boundary_exclusion_witness :
  beyond (A := numpy) (-7, 7)%float (-7, 7)%float (14, 14) (8, 0)%float = true
  /\ bin_grid (14, 14)
       (grayscale_clip (A := numpy) (14, 14)
          (grayscale_transform ([(3, 3)%float] ++ (8, 0)%float :: [(1, -2)%float])
             (-7, 7)%float (-7, 7)%float (14, 14)))
     = bin_grid (14, 14)
         (grayscale_clip (A := numpy) (14, 14)
            (grayscale_transform ([(3, 3)%float] ++ [(1, -2)%float])
               (-7, 7)%float (-7, 7)%float (14, 14)))
  /\ power_grid (A := numpy) (14, 14) 1%float 1%float
       (enhanced_clip (14, 14)
          (enhanced_transform ([(3, 3)%float] ++ (8, 0)%float :: [(1, -2)%float])
             (-7, 7)%float (-7, 7)%float (14, 14)))
     = power_grid (A := numpy) (14, 14) 1%float 1%float
         (enhanced_clip (14, 14)
            (enhanced_transform ([(3, 3)%float] ++ [(1, -2)%float])
               (-7, 7)%float (-7, 7)%float (14, 14))).
Proof.
  assert (Hb : beyond (A := numpy) (-7, 7)%float (-7, 7)%float (14, 14) (8, 0)%float
               = true) by (vm_compute; reflexivity).
  destruct (boundary_exclusion exp_table x86_64 [(3, 3)%float] [(1, -2)%float]
              (8, 0)%float (-7, 7)%float (-7, 7)%float 14 14 1%float 1%float
              ltac:(lia) ltac:(lia) Hb) as (_ & Hbin & _ & Hker).
  split; [exact Hb|]. split; [exact Hbin | exact Hker].
Defined.

(** ** Failures *)

Section Failures.

Context {F : Type} {A : Float64 F}.

Lemma grayscale_img_grid_total (W H : nat) (grid : list (list Z)) :
  shaped W H grid -> (0 < W)%nat -> (0 < H)%nat ->
  exists img, grayscale_img_grid grid = Ok img.
Proof.
  intros Hs HW HH. unfold grayscale_img_grid, np_max_int.
  pose proof (concat_shaped_nonempty W H grid Hs HW HH) as Hne.
  destruct (concat grid) as [|c cs]; [contradiction|].
  cbn [bind]. eexists. reflexivity.
Qed.

Lemma enhanced_img_grid_total (W H : nat) (grid : list (list F)) :
  shaped W H grid -> (0 < W)%nat -> (0 < H)%nat ->
  exists img, enhanced_img_grid grid = Ok img.
Proof.
  intros Hs HW HH. unfold enhanced_img_grid, np_max.
  pose proof (concat_shaped_nonempty W H grid Hs HW HH) as Hne.
  destruct (concat grid) as [|c cs]; [contradiction|].
  cbn [bind]. eexists. reflexivity.
Qed.

(** For a positive resolution the kernel variant always writes an image. *)
Lemma enhancedGrayscale_total symbols i_range q_range (W H : Z) power decay :
  0 < W -> 0 < H ->
  exists img, enhancedGrayscale symbols i_range q_range (W, H) power decay = Ok img.
Proof.
  intros HW HH. unfold enhancedGrayscale. rewrite enhanced_clip_kept.
  destruct (power_grid (W, H) power decay
              (List.split (map (pixel_coord i_range q_range (W, H))
                             (filter (enhanced_keeps i_range q_range (W, H)) symbols))))
    as [grid|e] eqn:Hg.
  - cbn [bind].
    apply (enhanced_img_grid_total (Z.to_nat W) (Z.to_nat H)); try lia.
    exact (shaped_power_grid W H power decay _ grid Hg).
  - exfalso. revert Hg. rewrite power_grid_pixel_loop.
    replace (W <? 0) with false by (symmetry; apply Z.ltb_ge; lia).
    replace (H <? 0) with false by (symmetry; apply Z.ltb_ge; lia).
    discriminate.
Qed.

(** The count grid of the kept samples: the loop raises IndexError exactly
    when one of their index pairs lies outside [[-W, W) x [-H, H)]. *)
Lemma bin_grid_kept symbols i_range q_range (W H : Z) :
  0 <= W -> 0 <= H ->
  bin_grid (W, H)
    (grayscale_clip (W, H) (grayscale_transform symbols i_range q_range (W, H)))
  = if forallb (index_ok (W, H))
         (map (grayscale_index i_range q_range (W, H))
            (filter (grayscale_keeps i_range q_range (W, H)) symbols))
    then Ok (fold_left (bin_step (W, H))
               (map (grayscale_index i_range q_range (W, H))
                  (filter (grayscale_keeps i_range q_range (W, H)) symbols))
               (np_zeros 0 W H))
    else Raised IndexError.
Proof.
  intros HW HH. rewrite grayscale_clip_kept. unfold bin_grid.
  replace (W <? 0) with false by (symmetry; apply Z.ltb_ge; lia).
  replace (H <? 0) with false by (symmetry; apply Z.ltb_ge; lia).
  cbn [orb]. rewrite split_fst_snd. cbn [fst snd].
  apply bin_samples_pairs.
Qed.

(** For a positive resolution the binning variant writes an image unless the
    loop raises IndexError. *)
Lemma grayscale_outcome symbols i_range q_range (W H : Z) :
  0 < W -> 0 < H ->
  (forallb (index_ok (W, H))
     (map (grayscale_index i_range q_range (W, H))
        (filter (grayscale_keeps i_range q_range (W, H)) symbols)) = true
   /\ exists img, grayscale symbols i_range q_range (W, H) = Ok img)
  \/ (forallb (index_ok (W, H))
        (map (grayscale_index i_range q_range (W, H))
           (filter (grayscale_keeps i_range q_range (W, H)) symbols)) = false
      /\ grayscale symbols i_range q_range (W, H) = Raised IndexError).
Proof.
  intros HW HH. unfold grayscale. rewrite bin_grid_kept by lia.
  destruct (forallb (index_ok (W, H)) _) eqn:Hok.
  - left. split; [reflexivity|]. cbn [bind].
    apply (grayscale_img_grid_total (Z.to_nat W) (Z.to_nat H)); try lia.
    apply shaped_bin_fold, shaped_np_zeros.
  - right. split; reflexivity.
Qed.

End Failures.

(** In binary64 a division by a zero is an infinity or NaN. *)
Lemma f64_div_by_zero (a d : float) :
  PrimFloat.is_zero d = true -> f64_inf_or_nan (PrimFloat.div a d) = true.
Proof.
  unfold PrimFloat.is_zero, f64_inf_or_nan.
  rewrite FloatAxioms.eqb_spec, FloatAxioms.div_spec.
  change (Prim2SF zero) with (S754_zero false).
  destruct (Prim2SF d) as [sd|sd| |sd md ed].
  - intros _. destruct (Prim2SF a) as [sa|sa| |sa ma ea]; reflexivity.
  - destruct sd; discriminate.
  - discriminate.
  - destruct sd; discriminate.
Qed.

(** ** C2: degenerate ranges *)

(** C2, as the code has it.  The ranges are not validated and no error is
    raised on their account.  For every I-range and Q-range ([min >= max]
    included) and a positive resolution, the kernel variant writes an image,
    and the binning variant writes an image unless its loop raises
    IndexError, which it does exactly when a kept sample's index pair lies
    outside [[-W, W) x [-H, H)].  When [i_max - i_min] (resp.
    [q_max - q_min]) is zero, the division by zero is not an error: every
    mapped [y] (resp. [x]) is an infinity or NaN. *)
Theorem ranges_are_not_checked (exp : float -> float) (pol : cast_policy)
  (symbols : list (float * float)) (i_range q_range : float * float) (W H : Z)
  (power decay : float) :
  0 < W -> 0 < H ->
  (exists img,
      enhancedGrayscale (A := f64 exp pol) symbols i_range q_range (W, H) power decay
      = Ok img)
  /\ ((forallb (index_ok (W, H))
         (map (grayscale_index (A := f64 exp pol) i_range q_range (W, H))
            (filter (grayscale_keeps (A := f64 exp pol) i_range q_range (W, H))
               symbols)) = true
       /\ exists img,
            grayscale (A := f64 exp pol) symbols i_range q_range (W, H) = Ok img)
      \/ (forallb (index_ok (W, H))
            (map (grayscale_index (A := f64 exp pol) i_range q_range (W, H))
               (filter (grayscale_keeps (A := f64 exp pol) i_range q_range (W, H))
                  symbols)) = false
          /\ grayscale (A := f64 exp pol) symbols i_range q_range (W, H)
             = Raised IndexError))
  /\ (PrimFloat.is_zero (snd i_range - fst i_range)%float = true ->
      Forall (fun xy => f64_inf_or_nan (snd xy) = true)
        (map (pixel_coord (A := f64 exp pol) i_range q_range (W, H)) symbols))
  /\ (PrimFloat.is_zero (snd q_range - fst q_range)%float = true ->
      Forall (fun xy => f64_inf_or_nan (fst xy) = true)
        (map (pixel_coord (A := f64 exp pol) i_range q_range (W, H)) symbols)).
Proof.
  intros HW HH. split; [|split; [|split]].
  - apply enhancedGrayscale_total; assumption.
  - apply grayscale_outcome; assumption.
  - intros Hzero. apply Forall_map, Forall_forall. intros [i q] _.
    destruct i_range as [i_min i_max], q_range as [q_min q_max].
    cbn [pixel_coord fst snd fdiv f64] in *.
    apply f64_div_by_zero, Hzero.
  - intros Hzero. apply Forall_map, Forall_forall. intros [i q] _.
    destruct i_range as [i_min i_max], q_range as [q_min q_max].
    cbn [pixel_coord fst snd fdiv f64] in *.
    apply f64_div_by_zero, Hzero.
Qed.

(** The I-range [(1, 1)]: the sample maps to [y = 4 * 2 / 0 = infinity]. *)
Lemma ranges_are_not_checked_witness :
  (exists img,
      enhancedGrayscale (A := numpy) [(3, 3)%float] (1, 1)%float (-7, 7)%float (2, 2)
        1%float 1%float = Ok img)
  /\ (exists img,
      grayscale (A := numpy) [(3, 3)%float] (1, 1)%float (-7, 7)%float (2, 2) = Ok img)
  /\ Forall (fun xy => f64_inf_or_nan (snd xy) = true)
       (map (pixel_coord (A := numpy) (1, 1)%float (-7, 7)%float (2, 2))
          [(3, 3)%float]).
Proof.
  destruct (ranges_are_not_checked exp_table x86_64 [(3, 3)%float]
              (1, 1)%float (-7, 7)%float 2 2 1%float 1%float
              ltac:(lia) ltac:(lia)) as (Hker & Hbin & Hy & _).
  split; [exact Hker|]. split.
  - destruct Hbin as [[_ Himg] | [Hbad _]]; [exact Himg|].
    exfalso. revert Hbad. vm_compute. discriminate.
  - apply Hy. vm_compute. reflexivity.
Defined.

(** A Q-range with [min > max] and an I-range with [min = max] are both
    rendered: in the first the sample lands in pixel [(1, 1)]; in the second
    it maps to [y = infinity], is clipped, and the all-zero grid is written
    as an all-zero image (the cast of NaN on x86-64). *)
Lemma degenerate_range_is_rendered :
  grayscale (A := numpy) [(3, 3)%float] (-7, 7)%float (7, -7)%float (2, 2)
  = Ok [[0; 0]; [0; 255]]
  /\ grayscale (A := numpy) [(3, 3)%float] (1, 1)%float (-7, 7)%float (2, 2)
     = Ok [[0; 0]; [0; 0]]
  /\ enhancedGrayscale (A := numpy) [(3, 3)%float] (1, 1)%float (-7, 7)%float (2, 2)
       1%float 1%float
     = Ok [[0; 0]; [0; 0]].
Proof.
  repeat split; vm_compute; reflexivity.
Qed.

(** ** C5: negative coordinates in the binning variant *)




(** * Further properties of the renderers *)

(** ** binary64 comparisons as integer comparisons *)

Lemma bounded_digits m e :
  SpecFloat.bounded prec emax m e = true ->
  -1074 <= e <= 971 /\ Zpos (digits2_pos m) <= 53
  /\ (-1074 < e -> Zpos (digits2_pos m) = 53).
Proof.
  intros Hb. apply bounded_canonical in Hb. destruct Hb as [Hc He]. lia.
Qed.

Lemma SFleb_scaled m1 e1 m2 e2 :
  SpecFloat.bounded prec emax m1 e1 = true ->
  SpecFloat.bounded prec emax m2 e2 = true ->
  SFleb (S754_finite false m1 e1) (S754_finite false m2 e2)
  = (f64_scaled m1 e1 <=? f64_scaled m2 e2).
Proof.
  intros Hb1 Hb2.
  apply bounded_digits in Hb1, Hb2.
  destruct Hb1 as (He1 & Hd1 & Hn1), Hb2 as (He2 & Hd2 & Hn2).
  destruct (digits2_pos_bounds m1) as [Hlo1 Hhi1].
  destruct (digits2_pos_bounds m2) as [Hlo2 Hhi2].
  assert (Hm1 : Zpos m1 < 2 ^ 53).
  { eapply Z.lt_le_trans; [exact Hhi1|]. apply Z.pow_le_mono_r; lia. }
  assert (Hm2 : Zpos m2 < 2 ^ 53).
  { eapply Z.lt_le_trans; [exact Hhi2|]. apply Z.pow_le_mono_r; lia. }
  unfold SFleb, SFcompare, f64_scaled.
  destruct (Z.compare_spec e1 e2) as [He|He|He].
  - subst e2.
    change (Pos.compare_cont Eq m1 m2) with (Pos.compare m1 m2).
    assert (Hp : 0 < 2 ^ (e1 + 1074)) by (apply Z.pow_pos_nonneg; lia).
    destruct (Pos.compare_spec m1 m2) as [Hm|Hm|Hm]; symmetry.
    + subst. apply Z.leb_le. lia.
    + apply Z.leb_le. apply Z.mul_le_mono_nonneg_r; lia.
    + apply Z.leb_gt. apply Z.mul_lt_mono_pos_r; lia.
  - symmetry. apply Z.leb_le.
    rewrite (Hn2 ltac:(lia)) in Hlo2. change (53 - 1) with 52 in Hlo2.
    replace (e2 + 1074) with ((e2 - e1) + (e1 + 1074)) by lia.
    rewrite (Z.pow_add_r 2 (e2 - e1) (e1 + 1074)) by lia.
    assert (Hp : 0 < 2 ^ (e1 + 1074)) by (apply Z.pow_pos_nonneg; lia).
    assert (H2 : 2 <= 2 ^ (e2 - e1)) by (apply (Z.pow_le_mono_r 2 1); lia).
    rewrite Z.mul_assoc. apply Z.mul_le_mono_nonneg_r; [lia|].
    assert (Hlt : Zpos m1 <= 2 * Zpos m2) by lia.
    eapply Z.le_trans; [exact Hlt|]. rewrite (Z.mul_comm 2).
    apply Z.mul_le_mono_nonneg_l; lia.
  - symmetry. apply Z.leb_gt.
    rewrite (Hn1 ltac:(lia)) in Hlo1. change (53 - 1) with 52 in Hlo1.
    replace (e1 + 1074) with ((e1 - e2) + (e2 + 1074)) by lia.
    rewrite (Z.pow_add_r 2 (e1 - e2) (e2 + 1074)) by lia.
    assert (Hp : 0 < 2 ^ (e2 + 1074)) by (apply Z.pow_pos_nonneg; lia).
    assert (H2 : 2 <= 2 ^ (e1 - e2)) by (apply (Z.pow_le_mono_r 2 1); lia).
    rewrite Z.mul_assoc. apply Z.mul_lt_mono_pos_r; [lia|].
    assert (Hlt : Zpos m2 < 2 * Zpos m1) by lia.
    eapply Z.lt_le_trans; [exact Hlt|]. rewrite (Z.mul_comm 2).
    apply Z.mul_le_mono_nonneg_l; lia.
Qed.

Lemma bounded_canon p :
  Zpos p < 2 ^ 53 -> SpecFloat.bounded prec emax (canon_m p) (canon_e p) = true.
Proof.
  intros Hp.
  assert (Hd : Zpos (digits2_pos p) <= 53) by (apply digits2_pos_le; lia).
  unfold SpecFloat.bounded, SpecFloat.canonical_mantissa, SpecFloat.fexp, SpecFloat.emin.
  rewrite (canon_m_digits p Hd). unfold canon_e, prec, emax.
  pose proof (Pos2Z.is_pos (digits2_pos p)).
  apply andb_true_iff. split; [apply Z.eqb_eq | apply Z.leb_le]; lia.
Qed.

Lemma f64_scaled_canon p :
  Zpos p < 2 ^ 53 -> f64_scaled (canon_m p) (canon_e p) = Zpos p * 2 ^ 1074.
Proof.
  intros Hp.
  assert (Hd : Zpos (digits2_pos p) <= 53) by (apply digits2_pos_le; lia).
  unfold f64_scaled. rewrite (canon_m_value p Hd).
  pose proof (Pos2Z.is_pos (digits2_pos p)).
  rewrite <- Z.mul_assoc, <- Z.pow_add_r by (unfold canon_e; lia).
  f_equal. f_equal. lia.
Qed.

(** Comparison of a positive integer below [2^53] with a positive finite
    float. *)
Lemma SFleb_of_int_l p m e :
  Zpos p < 2 ^ 53 -> SpecFloat.bounded prec emax m e = true ->
  SFleb (Prim2SF (f64_of_int (Zpos p))) (S754_finite false m e)
  = (Zpos p * 2 ^ 1074 <=? f64_scaled m e).
Proof.
  intros Hp Hb. rewrite Prim2SF_of_int_pos by exact Hp.
  rewrite SFleb_scaled by (try apply bounded_canon; assumption).
  rewrite f64_scaled_canon by exact Hp. reflexivity.
Qed.

Lemma floor_quotient_bound m e :
  SpecFloat.bounded prec emax m e = true -> e < 0 ->
  0 <= Zpos m / 2 ^ (- e) < 2 ^ 53.
Proof.
  intros Hb He. apply bounded_digits in Hb. destruct Hb as (_ & Hd & _).
  destruct (digits2_pos_bounds m) as [_ Hhi].
  assert (Hm : Zpos m < 2 ^ 53).
  { eapply Z.lt_le_trans; [exact Hhi|]. apply Z.pow_le_mono_r; lia. }
  assert (Hp : 0 < 2 ^ (- e)) by (apply Z.pow_pos_nonneg; lia).
  split; [apply Z.div_pos; lia|].
  apply Z.div_lt_upper_bound; [lia|]. nia.
Qed.

Lemma f64_scaled_split m e :
  -1074 <= e -> e < 0 -> f64_scaled m e * 2 ^ (- e) = Zpos m * 2 ^ 1074.
Proof.
  intros H1 H2. unfold f64_scaled.
  rewrite <- Z.mul_assoc, <- Z.pow_add_r by lia. f_equal. f_equal. lia.
Qed.

(** The floor of a float is at least [W] only if the float is. *)
Lemma f64_floor_ge_inv x W :
  0 <= W < 2 ^ 53 ->
  f64_ge (f64_floor x) (f64_of_int W) = true -> f64_ge x (f64_of_int W) = true.
Proof.
  intros HW. unfold f64_ge. rewrite !FloatAxioms.leb_spec.
  pose proof (Prim2SF_valid x) as Hv.
  unfold f64_floor.
  destruct (Prim2SF x) as [sx|sx| |s m e] eqn:Hx; try (rewrite Hx; tauto).
  destruct (0 <=? e) eqn:He; [rewrite Hx; tauto|].
  apply Z.leb_gt in He. cbn [valid_binary] in Hv.
  pose proof (floor_quotient_bound m e Hv He) as Hq.
  pose proof (bounded_digits m e Hv) as (Hrange & _ & _).
  assert (Hpow : 0 < 2 ^ (- e)) by (apply Z.pow_pos_nonneg; lia).
  destruct s.
  - (* a negative float: its floor is negative *)
    cbn [cond_Zopp Z.opp].
    assert (Hneg : Zneg m / 2 ^ (- e) < 0) by (apply Z.div_lt_upper_bound; lia).
    assert (Hlow : - Zpos m <= Zneg m / 2 ^ (- e)).
    { apply Z.div_le_lower_bound; [lia|].
      assert (1 <= 2 ^ (- e)) by (apply (Z.pow_le_mono_r 2 0); lia). nia. }
    destruct (Zneg m / 2 ^ (- e)) as [|q|q] eqn:Hq'; try lia.
    cbn [Z.eqb].
    rewrite Prim2SF_of_int_neg.
    + destruct W as [|p|p]; [| |lia].
      * intros H; exact H.
      * rewrite Prim2SF_of_int_pos by lia. intros H; exact H.
    + destruct (digits2_pos_bounds m) as [_ Hhi].
      apply bounded_digits in Hv. destruct Hv as (_ & Hd & _).
      assert (Zpos m < 2 ^ 53); [|lia].
      eapply Z.lt_le_trans; [exact Hhi|]. apply Z.pow_le_mono_r; lia.
  - cbn [cond_Zopp] in *.
    destruct W as [|p|p]; [| |lia].
    + intros _. reflexivity.
    + rewrite (SFleb_of_int_l p m e) by (try exact Hv; lia).
      destruct (Zpos m / 2 ^ (- e)) as [|q|q] eqn:Hq'; try lia.
      * cbn [Z.eqb]. change (Prim2SF zero) with (S754_zero false).
        rewrite Prim2SF_of_int_pos by lia. discriminate.
      * cbn [Z.eqb]. rewrite !Prim2SF_of_int_pos by lia.
        rewrite SFleb_scaled by (apply bounded_canon; lia).
        rewrite !f64_scaled_canon by lia.
        intros Hle. apply Z.leb_le in Hle. apply Z.leb_le.
        assert (Hpq : Zpos p <= Zpos q).
        { assert (0 < 2 ^ 1074) by (apply Z.pow_pos_nonneg; lia). nia. }
        assert (Hqm : Zpos q * 2 ^ (- e) <= Zpos m).
        { rewrite <- Hq'. rewrite Z.mul_comm. apply Z.mul_div_le. lia. }
        pose proof (f64_scaled_split m e ltac:(lia) He) as Hs.
        assert (0 < 2 ^ 1074) by (apply Z.pow_pos_nonneg; lia).
        assert (Zpos p * 2 ^ 1074 * 2 ^ (- e) <= f64_scaled m e * 2 ^ (- e)); [|nia].
        rewrite Hs. nia.
Qed.

Lemma f64_trunc_of_int_pos q :
  Zpos q < 2 ^ 53 -> f64_trunc (f64_of_int (Zpos q)) = Some (Zpos q).
Proof.
  intros Hq.
  assert (Hd : Zpos (digits2_pos q) <= 53) by (apply digits2_pos_le; lia).
  unfold f64_trunc. rewrite Prim2SF_of_int_pos by exact Hq.
  cbn [cond_Zopp]. rewrite (canon_m_value q Hd).
  assert (He : canon_e q <= 0) by (unfold canon_e; lia).
  rewrite (Z.max_r (canon_e q) 0), (Z.max_l (- canon_e q) 0) by lia.
  rewrite Z.pow_0_r, Z.mul_1_r.
  rewrite Z.quot_mul; [reflexivity|].
  apply Z.pow_nonzero; lia.
Qed.

Lemma f64_to_int64_small pol x z :
  f64_trunc x = Some z -> 0 <= z < 2 ^ 53 -> f64_to_int64 pol x = z.
Proof.
  intros Ht Hz. unfold f64_to_int64. rewrite Ht.
  replace (- 2 ^ 63 <=? z) with true by (symmetry; apply Z.leb_le; lia).
  replace (z <? 2 ^ 63) with true by (symmetry; apply Z.ltb_lt; lia).
  reflexivity.
Qed.

Lemma f64_scaled_lt_iff m e c :
  -1074 <= e -> e < 0 ->
  (f64_scaled m e < c * 2 ^ 1074 <-> Zpos m < c * 2 ^ (- e)).
Proof.
  intros H1 H2. pose proof (f64_scaled_split m e H1 H2) as Hs.
  assert (Hp : 0 < 2 ^ 1074) by (apply Z.pow_pos_nonneg; lia).
  assert (Hk : 0 < 2 ^ (- e)) by (apply Z.pow_pos_nonneg; lia).
  split; intros H.
  - apply (Z.mul_lt_mono_pos_r (2 ^ 1074)); [lia|].
    rewrite <- Hs.
    replace (c * 2 ^ (- e) * 2 ^ 1074) with (c * 2 ^ 1074 * 2 ^ (- e)) by ring.
    apply Z.mul_lt_mono_pos_r; lia.
  - apply (Z.mul_lt_mono_pos_r (2 ^ (- e))); [lia|].
    rewrite Hs.
    replace (c * 2 ^ 1074 * 2 ^ (- e)) with (c * 2 ^ (- e) * 2 ^ 1074) by ring.
    apply Z.mul_lt_mono_pos_r; lia.
Qed.

Lemma f64_ge_of_int_pos x q m e :
  Prim2SF x = S754_finite false m e -> Zpos q < 2 ^ 53 ->
  f64_ge x (f64_of_int (Zpos q)) = (Zpos q * 2 ^ 1074 <=? f64_scaled m e).
Proof.
  intros Hx Hq. unfold f64_ge. rewrite FloatAxioms.leb_spec, Hx.
  apply SFleb_of_int_l; [exact Hq|].
  pose proof (Prim2SF_valid x) as Hv. rewrite Hx in Hv. exact Hv.
Qed.

Lemma f64_ge_zero_of_pos x m e :
  Prim2SF x = S754_finite false m e -> f64_ge x (f64_of_int 0) = true.
Proof.
  intros Hx. unfold f64_ge. rewrite FloatAxioms.leb_spec, Hx. reflexivity.
Qed.

(** The index a non-negative coordinate below [W] is cast to: it lies in
    [[0, W)] and brackets the coordinate, [i <= x < i + 1]. *)
Lemma f64_index_spec pol x W :
  0 < W < 2 ^ 53 ->
  f64_ge x (f64_of_int 0) = true ->
  f64_ge (f64_floor x) (f64_of_int W) = false ->
  0 <= f64_to_int64 pol (f64_floor x) < W
  /\ f64_ge x (f64_of_int (f64_to_int64 pol (f64_floor x))) = true
  /\ f64_ge x (f64_of_int (f64_to_int64 pol (f64_floor x) + 1)) = false.
Proof.
  intros HW Hx0 HxW.
  destruct W as [|p|p]; try lia.
  assert (Hp : 0 < 2 ^ 1074) by (apply Z.pow_pos_nonneg; lia).
  pose proof (Prim2SF_valid x) as Hv.
  revert Hx0 HxW. unfold f64_floor.
  destruct (Prim2SF x) as [sx|sx| |s m e] eqn:Hx.
  - (* a zero *)
    intros _ _.
    rewrite (f64_to_int64_small pol x 0);
      [|unfold f64_trunc; rewrite Hx; reflexivity|lia].
    split; [lia|]. unfold f64_ge. rewrite !FloatAxioms.leb_spec, Hx.
    change (0 + 1) with 1. rewrite (Prim2SF_of_int_pos 1) by lia.
    change (Prim2SF (f64_of_int 0)) with (S754_zero false).
    destruct sx; split; reflexivity.
  - (* an infinity *)
    unfold f64_ge. rewrite !FloatAxioms.leb_spec, Hx.
    change (Prim2SF (f64_of_int 0)) with (S754_zero false).
    destruct sx; [discriminate|]. intros _.
    rewrite Prim2SF_of_int_pos by lia. discriminate.
  - unfold f64_ge. rewrite !FloatAxioms.leb_spec, Hx. discriminate.
  - destruct s.
    { unfold f64_ge at 1. rewrite FloatAxioms.leb_spec, Hx. discriminate. }
    intros _. cbn [valid_binary] in Hv.
    pose proof (bounded_digits m e Hv) as (Hrange & Hd & _).
    destruct (0 <=? e) eqn:He.
    + (* an integer-valued float *)
      apply Z.leb_le in He.
      rewrite (f64_ge_of_int_pos x p m e Hx) by lia.
      intros HxW. apply Z.leb_gt in HxW.
      assert (Hpe : 0 < 2 ^ e) by (apply Z.pow_pos_nonneg; lia).
      assert (Hsc : f64_scaled m e = Zpos m * 2 ^ e * 2 ^ 1074).
      { unfold f64_scaled. rewrite Z.pow_add_r by lia. ring. }
      assert (Hval : 0 < Zpos m * 2 ^ e < Zpos p).
      { split; [lia|]. rewrite Hsc in HxW.
        apply Z.mul_lt_mono_pos_r in HxW; lia. }
      rewrite (f64_to_int64_small pol x (Zpos m * 2 ^ e)); [| |lia].
      * destruct (Zpos m * 2 ^ e) as [|q|q] eqn:Hq; try lia.
        replace (Zpos q + 1) with (Zpos (q + 1)) by lia.
        rewrite !(f64_ge_of_int_pos x _ m e Hx) by lia.
        rewrite Hsc. split; [lia|]. split; [apply Z.leb_le | apply Z.leb_gt]; lia.
      * unfold f64_trunc. rewrite Hx. cbn [cond_Zopp].
        rewrite (Z.max_l e 0), (Z.max_r (- e) 0) by lia.
        rewrite Z.pow_0_r, Z.quot_1_r. reflexivity.
    + (* a float with a fractional part *)
      apply Z.leb_gt in He. cbn [cond_Zopp].
      pose proof (floor_quotient_bound m e Hv He) as Hq.
      assert (Hk : 0 < 2 ^ (- e)) by (apply Z.pow_pos_nonneg; lia).
      pose proof (Z.mul_div_le (Zpos m) (2 ^ (- e)) Hk) as Hlo.
      pose proof (Z.mul_succ_div_gt (Zpos m) (2 ^ (- e)) Hk) as Hhi.
      destruct (Zpos m / 2 ^ (- e)) as [|q|q] eqn:Hq'; try lia.
      * cbn [Z.eqb]. intros _.
        rewrite (f64_to_int64_small pol zero 0); [|reflexivity|lia].
        split; [lia|]. split; [apply (f64_ge_zero_of_pos x m e Hx)|].
        change (0 + 1) with 1.
        rewrite (f64_ge_of_int_pos x 1 m e Hx) by lia.
        apply Z.leb_gt. apply f64_scaled_lt_iff; lia.
      * cbn [Z.eqb].
        unfold f64_ge at 1. rewrite FloatAxioms.leb_spec, !Prim2SF_of_int_pos by lia.
        rewrite SFleb_scaled by (apply bounded_canon; lia).
        rewrite !f64_scaled_canon by lia.
        intros HxW. apply Z.leb_gt in HxW.
        assert (Hqp : Zpos q < Zpos p).
        { apply (Z.mul_lt_mono_pos_r (2 ^ 1074)); lia. }
        rewrite (f64_to_int64_small pol _ (Zpos q));
          [|apply f64_trunc_of_int_pos; lia|lia].
        replace (Zpos q + 1) with (Zpos (q + 1)) by lia.
        rewrite !(f64_ge_of_int_pos x _ m e Hx) by lia.
        split; [lia|]. split.
        -- apply Z.leb_le.
           destruct (Z.le_gt_cases (Zpos q * 2 ^ 1074) (f64_scaled m e)) as [H|H];
             [exact H|].
           apply f64_scaled_lt_iff in H; lia.
        -- apply Z.leb_gt. apply f64_scaled_lt_iff; lia.
Qed.

Lemma Forall_grid_map {A B : Type} (P : B -> Prop) (f : A -> B) (grid : list (list A)) :
  (forall a, P (f a)) -> Forall (Forall P) (map (map f) grid).
Proof.
  intros Hf. apply Forall_map, Forall_forall. intros row _.
  apply Forall_map, Forall_forall. intros a _. apply Hf.
Qed.

Lemma shaped_concat_nil {A : Type} (W H : nat) (grid : list (list A)) :
  shaped W H grid -> W = 0%nat \/ H = 0%nat -> concat grid = [].
Proof.
  intros [Hlen Hrows] [-> | ->].
  - destruct grid; [reflexivity | discriminate].
  - clear Hlen. induction Hrows as [|row grid Hrow _ IH]; [reflexivity|].
    destruct row; [exact IH | discriminate].
Qed.

Section Rasters.

Variable exp : float -> float.
Variable pol : cast_policy.

Lemma grayscale_img_grid_raster (W H : nat) (grid img : list (list Z)) :
  shaped W H grid -> grayscale_img_grid (A := f64 exp pol) grid = Ok img ->
  shaped W H img /\ Forall (Forall (fun p => 0 <= p <= 255)) img.
Proof.
  intros Hs. unfold grayscale_img_grid.
  destruct (np_max_int grid) as [m|e]; [|discriminate].
  cbn [bind]. intros Himg. injection Himg as <-. split.
  - apply shaped_map, shaped_map, Hs.
  - apply Forall_grid_map. intros v. apply f64_to_uint8_range.
Qed.

Lemma enhanced_img_grid_raster (W H : nat) (grid : list (list float))
  (img : list (list Z)) :
  shaped W H grid -> enhanced_img_grid (A := f64 exp pol) grid = Ok img ->
  shaped W H img /\ Forall (Forall (fun p => 0 <= p <= 255)) img.
Proof.
  intros Hs. unfold enhanced_img_grid.
  destruct (np_max (A := f64 exp pol) grid) as [m|e]; [|discriminate].
  cbn [bind]. intros Himg. injection Himg as <-. split.
  - apply shaped_map, shaped_map, shaped_map, Hs.
  - apply Forall_grid_map. intros v. apply f64_to_uint8_range.
Qed.

End Rasters.

(** ** X1: the raster *)

(** X1.  Whenever either variant reaches [img.save], the raster it writes has
    the shape of the resolution, [W] rows of [H] pixels, and every pixel is
    an integer between 0 and 255, whatever the samples, the ranges and the
    result of the casts the machine leaves undefined. *)
Theorem raster_shape_and_range (exp : float -> float) (pol : cast_policy)
  (symbols : list (float * float)) (i_range q_range : float * float) (W H : Z)
  (power decay : float) (img : list (list Z)) :
  grayscale (A := f64 exp pol) symbols i_range q_range (W, H) = Ok img
  \/ enhancedGrayscale (A := f64 exp pol) symbols i_range q_range (W, H) power decay
     = Ok img ->
  shaped (Z.to_nat W) (Z.to_nat H) img
  /\ Forall (Forall (fun p => 0 <= p <= 255)) img.
Proof.
  intros [Himg | Himg].
  - unfold grayscale in Himg. rewrite grayscale_clip_kept in Himg.
    destruct (bin_grid (W, H) _) as [grid|e] eqn:Hg; [|discriminate].
    cbn [bind] in Himg.
    apply (grayscale_img_grid_raster exp pol _ _ grid); [|exact Himg].
    exact (shaped_bin_grid W H _ grid Hg).
  - unfold enhancedGrayscale in Himg. rewrite enhanced_clip_kept in Himg.
    destruct (power_grid (A := f64 exp pol) (W, H) power decay _) as [grid|e] eqn:Hg;
      [|discriminate].
    cbn [bind] in Himg.
    apply (enhanced_img_grid_raster exp pol _ _ grid); [|exact Himg].
    exact (shaped_power_grid W H power decay _ grid Hg).
Qed.

Lemma raster_shape_and_range_witness :
  shaped 2 1 [[255]; [127]] /\ Forall (Forall (fun p => 0 <= p <= 255)) [[255]; [127]].
Proof.
  apply (raster_shape_and_range exp_table x86_64
           [(0.5, 1.5); (0.5, 0.5); (0.25, 1.25)]%float (0, 1)%float (0, 2)%float
           2 1 1%float 1%float [[255]; [127]]).
  left. vm_compute. reflexivity.
Defined.

(** ** X2: a resolution with an empty or negative dimension *)

(** X2.  When [W <= 0] or [H <= 0] no image is written.  The kernel variant
    raises ValueError ([np.zeros] on a negative dimension, [np.max] on an
    empty grid); the binning variant raises ValueError or, when a sample is
    kept, IndexError at the increment, and ValueError whenever a dimension is
    negative. *)
Theorem empty_resolution_is_refused {F : Type} {A : Float64 F}
  (symbols : list (F * F)) (i_range q_range : F * F) (W H : Z) (power decay : F) :
  W <= 0 \/ H <= 0 ->
  enhancedGrayscale symbols i_range q_range (W, H) power decay = Raised ValueError
  /\ (grayscale symbols i_range q_range (W, H) = Raised ValueError
      \/ grayscale symbols i_range q_range (W, H) = Raised IndexError)
  /\ (W < 0 \/ H < 0 -> grayscale symbols i_range q_range (W, H) = Raised ValueError).
Proof.
  intros Hres.
  assert (Hneg : W < 0 \/ H < 0 ->
                 grayscale symbols i_range q_range (W, H) = Raised ValueError).
  { intros Hn. unfold grayscale, bin_grid.
    replace ((W <? 0) || (H <? 0)) with true; [reflexivity|].
    symmetry. apply orb_true_iff.
    destruct Hn; [left | right]; apply Z.ltb_lt; assumption. }
  split; [|split; [|exact Hneg]].
  - unfold enhancedGrayscale. rewrite enhanced_clip_kept, power_grid_pixel_loop.
    destruct ((W <? 0) || (H <? 0)) eqn:Hn; [reflexivity|].
    apply orb_false_iff in Hn. destruct Hn as [HW HH].
    apply Z.ltb_ge in HW, HH. cbn [bind].
    unfold enhanced_img_grid, np_max.
    rewrite (shaped_concat_nil (Z.to_nat W) (Z.to_nat H)); [reflexivity| |lia].
    apply shaped_pixel_loop, shaped_np_zeros.
  - destruct (Z.lt_ge_cases W 0) as [HW|HW]; [left; apply Hneg; lia|].
    destruct (Z.lt_ge_cases H 0) as [HH|HH]; [left; apply Hneg; lia|].
    unfold grayscale. rewrite bin_grid_kept by lia.
    destruct (forallb (index_ok (W, H)) _); [left | right; reflexivity].
    cbn [bind]. unfold grayscale_img_grid, np_max_int.
    rewrite (shaped_concat_nil (Z.to_nat W) (Z.to_nat H)); [reflexivity| |lia].
    apply shaped_bin_fold, shaped_np_zeros.
Qed.

Lemma empty_resolution_is_refused_witness :
  enhancedGrayscale (A := numpy) [(3, 3)%float] (-7, 7)%float (-7, 7)%float (0, 4)
    1%float 1%float = Raised ValueError
  /\ grayscale (A := numpy) [(3, 3)%float] (-7, 7)%float (-7, 7)%float (4, -1)
     = Raised ValueError.
Proof.
  split.
  - exact (proj1 (empty_resolution_is_refused (A := numpy) [(3, 3)%float]
                    (-7, 7)%float (-7, 7)%float 0 4 1%float 1%float
                    ltac:(left; lia))).
  - exact (proj2 (proj2 (empty_resolution_is_refused (A := numpy) [(3, 3)%float]
                           (-7, 7)%float (-7, 7)%float 4 (-1) 1%float 1%float
                           ltac:(right; lia)))
             ltac:(right; lia)).
Defined.

(** ** X3: the two clipping passes *)

(** X3.  In both variants the two [np.delete] passes leave coordinate arrays
    of equal length that pair up, in input order, the coordinates of exactly
    the samples that pass both tests: a sample is kept or removed on its own
    coordinates alone, and no [x] is ever paired with another sample's
    [y]. *)
Theorem clipping_keeps_pairs {F : Type} {A : Float64 F}
  (symbols : list (F * F)) (i_range q_range : F * F) (img_resolution : Z * Z) :
  (let kept := grayscale_clip img_resolution
                 (grayscale_transform symbols i_range q_range img_resolution) in
   length (fst kept) = length (snd kept)
   /\ combine (fst kept) (snd kept)
      = map (grayscale_index i_range q_range img_resolution)
          (filter (grayscale_keeps i_range q_range img_resolution) symbols))
  /\ (let kept := enhanced_clip img_resolution
                    (enhanced_transform symbols i_range q_range img_resolution) in
      length (fst kept) = length (snd kept)
      /\ combine (fst kept) (snd kept)
         = map (pixel_coord i_range q_range img_resolution)
             (filter (enhanced_keeps i_range q_range img_resolution) symbols)).
Proof.
  assert (Hsplit : forall (B C : Type) (l : list (B * C)),
             length (fst (List.split l)) = length (snd (List.split l))
             /\ combine (fst (List.split l)) (snd (List.split l)) = l).
  { intros B C l. rewrite split_fst_snd. cbn [fst snd]. split.
    - rewrite !length_map. reflexivity.
    - induction l as [|[b c] l IH]; simpl; [reflexivity | rewrite IH; reflexivity]. }
  cbv zeta. rewrite grayscale_clip_kept, enhanced_clip_kept.
  split; apply Hsplit.
Qed.

(** [np.floor] and the clipping test commute. *)
Lemma f64_floor_ge_eq x W :
  0 <= W < 2 ^ 53 ->
  f64_ge (f64_floor x) (f64_of_int W) = f64_ge x (f64_of_int W).
Proof.
  intros HW.
  destruct (f64_ge x (f64_of_int W)) eqn:Hx.
  - apply f64_floor_ge; assumption.
  - destruct (f64_ge (f64_floor x) (f64_of_int W)) eqn:Hf; [|reflexivity].
    rewrite (f64_floor_ge_inv x W HW Hf) in Hx. discriminate.
Qed.

(** ** X4: the two variants keep the same samples *)

(** X4.  For resolutions below [2^53] the binning variant, which clips on the
    floored coordinates, and the kernel variant, which clips on the continuous
    ones, keep the same samples; the index arrays of the binning variant are
    the kept coordinates of the kernel variant, floored and cast to int. *)
Theorem variants_keep_the_same_samples (exp : float -> float) (pol : cast_policy)
  (symbols : list (float * float)) (i_range q_range : float * float) (W H : Z) :
  0 <= W < 2 ^ 53 -> 0 <= H < 2 ^ 53 ->
  filter (grayscale_keeps (A := f64 exp pol) i_range q_range (W, H)) symbols
  = filter (enhanced_keeps (A := f64 exp pol) i_range q_range (W, H)) symbols
  /\ (let kept := enhanced_clip (A := f64 exp pol) (W, H)
                    (enhanced_transform (A := f64 exp pol) symbols i_range q_range
                       (W, H)) in
      grayscale_clip (A := f64 exp pol) (W, H)
        (grayscale_transform (A := f64 exp pol) symbols i_range q_range (W, H))
      = (map (fun x => f64_to_int64 pol (f64_floor x)) (fst kept),
         map (fun y => f64_to_int64 pol (f64_floor y)) (snd kept))).
Proof.
  intros HW HH.
  assert (Hkeep : forall sample,
             grayscale_keeps (A := f64 exp pol) i_range q_range (W, H) sample
             = enhanced_keeps (A := f64 exp pol) i_range q_range (W, H) sample).
  { intros sample. unfold grayscale_keeps, enhanced_keeps.
    destruct (pixel_coord (A := f64 exp pol) i_range q_range (W, H) sample) as [x y].
    cbn [fst snd fge of_int ffloor f64].
    rewrite (f64_floor_ge_eq x W HW), (f64_floor_ge_eq y H HH). reflexivity. }
  assert (Hfilter :
            filter (grayscale_keeps (A := f64 exp pol) i_range q_range (W, H)) symbols
            = filter (enhanced_keeps (A := f64 exp pol) i_range q_range (W, H)) symbols)
    by (apply filter_ext; exact Hkeep).
  split; [exact Hfilter|].
  cbv zeta. rewrite grayscale_clip_kept, enhanced_clip_kept, Hfilter.
  rewrite !split_fst_snd. cbn [fst snd]. rewrite !map_map.
  f_equal; apply map_ext; intros sample; unfold grayscale_index;
    destruct (pixel_coord (A := f64 exp pol) i_range q_range (W, H) sample);
    reflexivity.
Qed.

Lemma variants_keep_the_same_samples_witness :
  filter (grayscale_keeps (A := numpy) (-7, 7)%float (-7, 7)%float (14, 14))
    [(3, 3); (8, 0); (1, -2)]%float
  = filter (enhanced_keeps (A := numpy) (-7, 7)%float (-7, 7)%float (14, 14))
      [(3, 3); (8, 0); (1, -2)]%float.
Proof.
  exact (proj1 (variants_keep_the_same_samples exp_table x86_64
                  [(3, 3); (8, 0); (1, -2)]%float (-7, 7)%float (-7, 7)%float 14 14
                  ltac:(lia) ltac:(lia))).
Defined.

(** ** X5: samples in the non-negative quadrant *)

(** X5.  In the binning variant, for a positive resolution below [2^53]: when
    every sample maps to coordinates [x >= 0] and [y >= 0], every kept sample
    has an index pair in [[0, W) x [0, H)], the increment never raises
    IndexError, and an image is written. *)
Theorem nonnegative_samples_are_binned (exp : float -> float) (pol : cast_policy)
  (symbols : list (float * float)) (i_range q_range : float * float) (W H : Z) :
  0 < W < 2 ^ 53 -> 0 < H < 2 ^ 53 ->
  forallb (in_quadrant (A := f64 exp pol) i_range q_range (W, H)) symbols = true ->
  Forall (fun xy => 0 <= fst xy < W /\ 0 <= snd xy < H)
    (map (grayscale_index (A := f64 exp pol) i_range q_range (W, H))
       (filter (grayscale_keeps (A := f64 exp pol) i_range q_range (W, H)) symbols))
  /\ exists img, grayscale (A := f64 exp pol) symbols i_range q_range (W, H) = Ok img.
Proof.
  intros HW HH Hq.
  assert (Hidx :
            Forall (fun xy => 0 <= fst xy < W /\ 0 <= snd xy < H)
              (map (grayscale_index (A := f64 exp pol) i_range q_range (W, H))
                 (filter (grayscale_keeps (A := f64 exp pol) i_range q_range (W, H))
                    symbols))).
  { apply Forall_map, Forall_forall. intros sample Hin.
    apply filter_In in Hin. destruct Hin as [Hin Hkept].
    rewrite forallb_forall in Hq. specialize (Hq sample Hin).
    revert Hq Hkept. unfold in_quadrant, grayscale_keeps, grayscale_index.
    destruct (pixel_coord (A := f64 exp pol) i_range q_range (W, H) sample) as [x y].
    cbn [fst snd fge of_int ffloor to_int64 f64].
    intros Hq Hkept.
    apply andb_true_iff in Hq. destruct Hq as [Hx0 Hy0].
    apply andb_true_iff in Hkept. destruct Hkept as [Hx Hy].
    apply negb_true_iff in Hx, Hy.
    split; apply f64_index_spec; assumption. }
  split; [exact Hidx|].
  destruct (grayscale_outcome (A := f64 exp pol) symbols i_range q_range W H
              ltac:(lia) ltac:(lia)) as [[_ Himg] | [Hbad _]]; [exact Himg|].
  exfalso.
  assert (Hok : forallb (index_ok (W, H))
                  (map (grayscale_index (A := f64 exp pol) i_range q_range (W, H))
                     (filter (grayscale_keeps (A := f64 exp pol) i_range q_range
                                (W, H)) symbols)) = true).
  { apply forallb_forall. intros xy Hin.
    rewrite Forall_forall in Hidx. specialize (Hidx xy Hin).
    unfold index_ok. cbn [fst snd].
    repeat (apply andb_true_iff; split);
      try (apply Z.leb_le; lia); apply Z.ltb_lt; lia. }
  rewrite Hok in Hbad. discriminate.
Qed.

Lemma nonnegative_samples_are_binned_witness :
  exists img,
    grayscale (A := numpy) [(3, 3); (8, 0); (1, -2)]%float (-7, 7)%float (-7, 7)%float
      (14, 14) = Ok img.
Proof.
  exact (proj2 (nonnegative_samples_are_binned exp_table x86_64
                  [(3, 3); (8, 0); (1, -2)]%float (-7, 7)%float (-7, 7)%float 14 14
                  ltac:(lia) ltac:(lia) ltac:(vm_compute; reflexivity))).
Defined.

(** ** Sums of counts *)

Lemma row_sum_update (row : list Z) (k : nat) (f : Z -> Z) :
  (k < length row)%nat ->
  row_sum (update row k f) = row_sum row - nth k row 0 + f (nth k row 0).
Proof.
  revert k. induction row as [|a row IH]; intros [|k] Hk; simpl in *; try lia.
  rewrite IH by lia. lia.
Qed.

Lemma row_sum_map_update (h : list Z -> Z) (grid : list (list Z)) (x : nat)
  (g : list Z -> list Z) :
  (x < length grid)%nat ->
  row_sum (map h (update grid x g))
  = row_sum (map h grid) - h (nth x grid []) + h (g (nth x grid [])).
Proof.
  revert x. induction grid as [|row grid IH]; intros [|x] Hx; simpl in *; try lia.
  rewrite IH by lia. lia.
Qed.

Lemma grid_sum_update (W H : nat) (grid : list (list Z)) (x y : nat) (f : Z -> Z) :
  shaped W H grid -> (x < W)%nat -> (y < H)%nat ->
  grid_sum (grid_update grid x y f)
  = grid_sum grid - grid_get 0 grid x y + f (grid_get 0 grid x y).
Proof.
  intros Hs Hx Hy. unfold grid_sum, grid_update, grid_get.
  pose proof (shaped_row W H grid x Hs Hx) as Hrow.
  rewrite row_sum_map_update by (destruct Hs; lia).
  rewrite row_sum_update by lia. lia.
Qed.

Lemma grid_sum_np_zeros (W H : Z) : grid_sum (np_zeros 0 W H) = 0.
Proof.
  unfold grid_sum, np_zeros. rewrite map_repeat.
  assert (Hz : forall n, row_sum (repeat 0 n) = 0)
    by (induction n as [|n IH]; simpl; [reflexivity | exact IH]).
  rewrite Hz. apply Hz.
Qed.

Lemma hits_le img_resolution idx x y : (hits img_resolution idx x y <= length idx)%nat.
Proof. unfold hits. apply filter_length_le. Qed.

Lemma bin_fold_sum (W H : Z) (idx : list (Z * Z)) :
  forallb (index_ok (W, H)) idx = true -> Z.of_nat (length idx) < 65536 ->
  grid_sum (fold_left (bin_step (W, H)) idx (np_zeros 0 W H)) = Z.of_nat (length idx).
Proof.
  induction idx as [|xy idx IH] using rev_ind; intros Hok Hlen.
  - apply grid_sum_np_zeros.
  - rewrite forallb_app in Hok. apply andb_true_iff in Hok.
    destruct Hok as [Hok Hxy]. cbn [forallb] in Hxy. rewrite andb_true_r in Hxy.
    rewrite length_app in *. cbn [length] in *.
    rewrite fold_left_app. cbn [fold_left]. unfold bin_step at 1.
    unfold index_ok in Hxy. cbn [fst snd] in Hxy.
    apply andb_true_iff in Hxy. destruct Hxy as [Hx Hy].
    pose proof (wrap_index_lt W (fst xy) Hx) as Hwx.
    pose proof (wrap_index_lt H (snd xy) Hy) as Hwy.
    cbn [fst snd].
    rewrite (grid_sum_update (Z.to_nat W) (Z.to_nat H))
      by (try apply shaped_bin_fold; try apply shaped_np_zeros; assumption).
    rewrite IH by (try exact Hok; lia).
    rewrite bin_fold_get by (try apply shaped_np_zeros; assumption).
    rewrite grid_get_np_zeros.
    rewrite <- (Z.mod_0_l 65536) at 1 2 by lia.
    rewrite !uint16_incr_iter by lia.
    pose proof (hits_le (W, H) idx (wrap_index W (fst xy)) (wrap_index H (snd xy))) as Hh.
    unfold uint16_incr. rewrite Z.add_0_l.
    rewrite (Z.mod_small (Z.of_nat _)) by lia.
    rewrite Z.mod_small by lia. lia.
Qed.

(** ** X6: the counts add up *)

(** X6.  In the binning variant, when the count grid is produced and fewer
    than 65536 samples are kept, the counts of all pixels sum to the number
    of kept samples: each kept sample is counted once, in one pixel. *)
Theorem counts_add_up {F : Type} {A : Float64 F}
  (symbols : list (F * F)) (i_range q_range : F * F) (W H : Z)
  (grid : list (list Z)) :
  bin_grid (W, H)
    (grayscale_clip (W, H) (grayscale_transform symbols i_range q_range (W, H)))
  = Ok grid ->
  Z.of_nat (length (filter (grayscale_keeps i_range q_range (W, H)) symbols)) < 65536 ->
  grid_sum grid
  = Z.of_nat (length (filter (grayscale_keeps i_range q_range (W, H)) symbols)).
Proof.
  intros Hg Hlen.
  assert (Hres : 0 <= W /\ 0 <= H).
  { revert Hg. unfold bin_grid.
    destruct (Z.ltb_spec W 0); [discriminate|].
    destruct (Z.ltb_spec H 0); [discriminate|]. lia. }
  rewrite bin_grid_kept in Hg by lia.
  destruct (forallb (index_ok (W, H)) _) eqn:Hok; [|discriminate].
  injection Hg as <-.
  rewrite bin_fold_sum; [apply f_equal, length_map | exact Hok |].
  rewrite length_map. exact Hlen.
Qed.

Lemma counts_add_up_witness :
  grid_sum [[3; 0]; [0; 0]]
  = Z.of_nat
      (length (filter (grayscale_keeps (A := numpy) (0, 2)%float (0, 2)%float (2, 2))
                 [(0.25, 1.75); (0.5, 2); (0.125, 1.5)]%float)).
Proof.
  apply (counts_add_up (A := numpy)).
  - vm_compute. reflexivity.
  - vm_compute. reflexivity.
Defined.

(** ** Cells that are zero *)

Lemma f64_positive_finite (M : float) :
  PrimFloat.ltb 0 M = true -> PrimFloat.ltb M infinity = true ->
  exists m e, Prim2SF M = S754_finite false m e.
Proof.
  rewrite !FloatAxioms.ltb_spec.
  change (Prim2SF 0) with (S754_zero false).
  change (Prim2SF infinity) with (S754_infinity false).
  destruct (Prim2SF M) as [s|s| |s m e]; try discriminate.
  - destruct s; discriminate.
  - destruct s; [discriminate|]. intros _ _. eauto.
Qed.

Lemma f64_zero_div (M : float) :
  (exists m e, Prim2SF M = S754_finite false m e) -> PrimFloat.div 0 M = 0%float.
Proof.
  intros (m & e & HM). apply Prim2SF_inj.
  rewrite FloatAxioms.div_spec, HM. reflexivity.
Qed.

Section ZeroCells.

Variable exp : float -> float.
Variable pol : cast_policy.

Lemma f64_zero_pixel (M : float) :
  (exists m e, Prim2SF M = S754_finite false m e) ->
  f64_to_uint8 pol (PrimFloat.mul (PrimFloat.div 0 M) (f64_of_int 255)) = 0
  /\ f64_to_uint8 pol (f64_floor (PrimFloat.mul (PrimFloat.div 0 M) (f64_of_int 255)))
     = 0.
Proof.
  intros HM. rewrite (f64_zero_div M HM). split; vm_compute; reflexivity.
Qed.

End ZeroCells.

(** ** X7: empty pixels are black *)

(** X7.  A pixel whose cell is zero is rendered as 0: in the binning variant
    when no kept sample is counted in it and the largest count is positive,
    in the kernel variant when its accumulated power is [+0] and the largest
    cell is positive and finite. *)
Theorem empty_pixels_are_black (exp : float -> float) (pol : cast_policy)
  (symbols : list (float * float)) (i_range q_range : float * float) (W H : Z)
  (power decay : float) (x y : nat) :
  (x < Z.to_nat W)%nat -> (y < Z.to_nat H)%nat ->
  (forall grid m img,
      bin_grid (W, H)
        (grayscale_clip (A := f64 exp pol) (W, H)
           (grayscale_transform (A := f64 exp pol) symbols i_range q_range (W, H)))
      = Ok grid ->
      np_max_int grid = Ok m -> 0 < m ->
      grayscale (A := f64 exp pol) symbols i_range q_range (W, H) = Ok img ->
      grid_get 0 grid x y = 0 -> grid_get 0 img x y = 0)
  /\ (forall grid M img,
      power_grid (A := f64 exp pol) (W, H) power decay
        (enhanced_clip (A := f64 exp pol) (W, H)
           (enhanced_transform (A := f64 exp pol) symbols i_range q_range (W, H)))
      = Ok grid ->
      np_max (A := f64 exp pol) grid = Ok M ->
      PrimFloat.ltb 0 M = true -> PrimFloat.ltb M infinity = true ->
      enhancedGrayscale (A := f64 exp pol) symbols i_range q_range (W, H) power decay
      = Ok img ->
      grid_get 0%float grid x y = 0%float -> grid_get 0 img x y = 0).
Proof.
  intros Hx Hy. split.
  - intros grid m img Hg Hm Hpos Himg Hcell.
    unfold grayscale in Himg. rewrite Hg in Himg. cbn [bind] in Himg.
    rewrite grayscale_clip_kept in Hg.
    destruct (grayscale_img_grid_positive exp pol W H _ grid m Hg Hm Hpos)
      as (img' & Himg' & Hcells & _).
    rewrite Himg' in Himg. injection Himg as <-.
    rewrite (proj1 (Hcells x y Hx Hy)), Hcell.
    assert (Hm53 : 0 < m < 2 ^ 53).
    { split; [exact Hpos|].
      pose proof (shaped_bin_grid W H _ grid Hg) as Hs.
      apply np_max_int_spec in Hm. destruct Hm as [Hin _].
      apply (In_concat_grid_get _ _ grid m 0 Hs) in Hin.
      destruct Hin as (x' & y' & Hx' & Hy' & <-).
      rewrite (bin_grid_get W H _ grid x' y' Hg Hx' Hy').
      pose proof (Z.mod_pos_bound
                    (Z.of_nat (hits (W, H)
                                 (map (grayscale_index (A := f64 exp pol) i_range
                                         q_range (W, H))
                                    (filter (grayscale_keeps (A := f64 exp pol)
                                               i_range q_range (W, H)) symbols))
                                 x' y')) 65536).
      lia. }
    change (f64_of_int 0) with 0%float.
    apply f64_zero_pixel.
    destruct m as [|p|p]; try lia.
    eexists _, _. apply Prim2SF_of_int_pos. lia.
  - intros grid M img Hg HM Hpos Hfin Himg Hcell.
    unfold enhancedGrayscale in Himg. rewrite Hg in Himg. cbn [bind] in Himg.
    rewrite enhanced_clip_kept in Hg.
    pose proof (shaped_power_grid W H power decay _ grid Hg) as Hs.
    destruct (enhanced_img_grid_normal exp pol _ _ grid M Hs HM
                (f64_positive_finite_normal M Hpos Hfin))
      as (img' & Himg' & Hcells & _).
    rewrite Himg' in Himg. injection Himg as <-.
    rewrite (proj1 (Hcells x y Hx Hy)), Hcell.
    apply f64_zero_pixel. apply f64_positive_finite; assumption.
Qed.

Lemma empty_pixels_are_black_witness :
  grid_get 0 [[0; 255]; [0; 0]] 1 1 = 0 /\ grid_get 0 [[255]; [0]] 1 0 = 0.
Proof.
  split.
  - destruct (empty_pixels_are_black exp_table x86_64 [(-2, 1)%float]
                (-1, 1)%float (-1, 1)%float 2 2 1%float 1%float 1 1
                ltac:(vm_compute; lia) ltac:(vm_compute; lia)) as [Hbin _].
    exact (Hbin [[0; 1]; [0; 0]] 1 [[0; 255]; [0; 0]]
             ltac:(vm_compute; reflexivity) ltac:(vm_compute; reflexivity)
             ltac:(lia) ltac:(vm_compute; reflexivity) ltac:(reflexivity)).
  - destruct (empty_pixels_are_black exp_far x86_64 [(0.5, 1.5)%float]
                (0, 1)%float (0, 2)%float 2 1 1%float 2000%float 1 0
                ltac:(vm_compute; lia) ltac:(vm_compute; lia)) as [_ Hker].
    exact (Hker [[1%float]; [0%float]] 1%float [[255]; [0]]
             ltac:(vm_compute; reflexivity) ltac:(vm_compute; reflexivity)
             ltac:(vm_compute; reflexivity) ltac:(vm_compute; reflexivity)
             ltac:(vm_compute; reflexivity) ltac:(reflexivity)).
Defined.

(** ** X8: binning two batches *)

(** X8.  In the binning variant, when the count grids of two sample sequences
    are produced, so is the count grid of their concatenation, and each of
    its counts is the sum of the two counts of that pixel modulo [2^16]. *)
Theorem binning_is_additive {F : Type} {A : Float64 F}
  (symbols1 symbols2 : list (F * F)) (i_range q_range : F * F) (W H : Z)
  (grid1 grid2 : list (list Z)) :
  bin_grid (W, H)
    (grayscale_clip (W, H) (grayscale_transform symbols1 i_range q_range (W, H)))
  = Ok grid1 ->
  bin_grid (W, H)
    (grayscale_clip (W, H) (grayscale_transform symbols2 i_range q_range (W, H)))
  = Ok grid2 ->
  exists grid,
    bin_grid (W, H)
      (grayscale_clip (W, H)
         (grayscale_transform (symbols1 ++ symbols2) i_range q_range (W, H)))
    = Ok grid
    /\ forall x y, (x < Z.to_nat W)%nat -> (y < Z.to_nat H)%nat ->
         grid_get 0 grid x y
         = (grid_get 0 grid1 x y + grid_get 0 grid2 x y) mod 65536.
Proof.
  intros Hg1 Hg2.
  assert (Hres : 0 <= W /\ 0 <= H).
  { revert Hg1. unfold bin_grid.
    destruct (Z.ltb_spec W 0); [discriminate|].
    destruct (Z.ltb_spec H 0); [discriminate|]. lia. }
  set (idx := fun symbols =>
                map (grayscale_index i_range q_range (W, H))
                  (filter (grayscale_keeps i_range q_range (W, H)) symbols)).
  assert (Happ : idx (symbols1 ++ symbols2) = idx symbols1 ++ idx symbols2)
    by (unfold idx; rewrite filter_app, map_app; reflexivity).
  assert (Hok : forall symbols grid,
             bin_grid (W, H)
               (grayscale_clip (W, H)
                  (grayscale_transform symbols i_range q_range (W, H))) = Ok grid ->
             forallb (index_ok (W, H)) (idx symbols) = true).
  { intros symbols grid. rewrite bin_grid_kept by lia. fold (idx symbols).
    destruct (forallb (index_ok (W, H)) (idx symbols)); [reflexivity | discriminate]. }
  pose proof (bin_grid_kept (symbols1 ++ symbols2) i_range q_range W H
                ltac:(lia) ltac:(lia)) as Hg.
  fold (idx (symbols1 ++ symbols2)) in Hg.
  rewrite Happ, forallb_app, (Hok _ _ Hg1), (Hok _ _ Hg2) in Hg. cbn [andb] in Hg.
  eexists. split; [exact Hg|].
  intros x y Hx Hy.
  rewrite grayscale_clip_kept in Hg, Hg1, Hg2.
  fold (idx symbols1) in Hg1. fold (idx symbols2) in Hg2.
  fold (idx (symbols1 ++ symbols2)) in Hg. rewrite Happ in Hg.
  rewrite (bin_grid_get W H _ _ x y Hg Hx Hy).
  rewrite (bin_grid_get W H _ _ x y Hg1 Hx Hy).
  rewrite (bin_grid_get W H _ _ x y Hg2 Hx Hy).
  unfold hits. rewrite filter_app, length_app, Nat2Z.inj_add.
  apply Zplus_mod.
Qed.

Lemma binning_is_additive_witness :
  exists grid,
    bin_grid (2, 2)
      (grayscale_clip (A := numpy) (2, 2)
         (grayscale_transform ([(0.25, 1.75); (0.5, 2)] ++ [(0.125, 1.5)])%float
            (0, 2)%float (0, 2)%float (2, 2)))
    = Ok grid
    /\ grid_get 0 grid 0 0 = 3.
Proof.
  destruct (binning_is_additive (A := numpy) [(0.25, 1.75); (0.5, 2)]%float
              [(0.125, 1.5)%float] (0, 2)%float (0, 2)%float 2 2
              [[2; 0]; [0; 0]] [[1; 0]; [0; 0]]
              ltac:(vm_compute; reflexivity) ltac:(vm_compute; reflexivity))
    as (grid & Hg & Hcells).
  exists grid. split; [exact Hg|].
  exact (Hcells 0%nat 0%nat ltac:(vm_compute; lia) ltac:(vm_compute; lia)).
Defined.

(** ** X9: a sample is counted in the pixel that contains it *)

(** X9.  In the binning variant, for a positive resolution below [2^53], a
    kept sample whose mapped coordinates [(x, y)] are at least 0 gets the
    index pair [(i, j)] with [0 <= i < W], [0 <= j < H] and
    [i <= x < i + 1], [j <= y < j + 1]: floor and the cast to int lose
    nothing. *)
Theorem sample_lands_in_its_pixel (exp : float -> float) (pol : cast_policy)
  (i_range q_range : float * float) (W H : Z) (sample : float * float)
  (x y : float) (i j : Z) :
  0 < W < 2 ^ 53 -> 0 < H < 2 ^ 53 ->
  pixel_coord (A := f64 exp pol) i_range q_range (W, H) sample = (x, y) ->
  in_quadrant (A := f64 exp pol) i_range q_range (W, H) sample = true ->
  grayscale_keeps (A := f64 exp pol) i_range q_range (W, H) sample = true ->
  grayscale_index (A := f64 exp pol) i_range q_range (W, H) sample = (i, j) ->
  (0 <= i < W /\ f64_ge x (f64_of_int i) = true /\ f64_ge x (f64_of_int (i + 1)) = false)
  /\ (0 <= j < H /\ f64_ge y (f64_of_int j) = true
      /\ f64_ge y (f64_of_int (j + 1)) = false).
Proof.
  intros HW HH Hxy. unfold in_quadrant, grayscale_keeps, grayscale_index.
  rewrite Hxy. cbn [fst snd fge of_int ffloor to_int64 f64].
  intros Hq Hkept Hidx.
  apply andb_true_iff in Hq. destruct Hq as [Hx0 Hy0].
  apply andb_true_iff in Hkept. destruct Hkept as [Hx Hy].
  apply negb_true_iff in Hx, Hy.
  injection Hidx as <- <-.
  split; apply f64_index_spec; assumption.
Qed.

Lemma sample_lands_in_its_pixel_witness :
  (0 <= 4 < 14 /\ f64_ge 4%float (f64_of_int 4) = true
   /\ f64_ge 4%float (f64_of_int (4 + 1)) = false)
  /\ (0 <= 10 < 14 /\ f64_ge 10%float (f64_of_int 10) = true
      /\ f64_ge 10%float (f64_of_int (10 + 1)) = false).
Proof.
  apply (sample_lands_in_its_pixel exp_table x86_64 (-7, 7)%float (-7, 7)%float
           14 14 (3, 3)%float 4%float 10%float 4 10);
    try lia; vm_compute; reflexivity.
Defined.

(** ** X10: a coordinate that is not finite *)

(** Where the cast to int is undefined, x86-64 answers [-2^63]. *)
Lemma f64_to_int64_nonfinite x :
  f64_inf_or_nan x = true -> f64_to_int64 x86_64 (f64_floor x) = - 2 ^ 63.
Proof.
  unfold f64_inf_or_nan, f64_to_int64, f64_floor, f64_trunc.
  destruct (Prim2SF x) as [s|s| |s m e] eqn:Hx; try discriminate;
    intros _; rewrite Hx; reflexivity.
Qed.

(** X10.  In the binning variant on x86-64, for a positive resolution: a kept
    sample one of whose mapped coordinates is NaN or an infinity (it can only
    be NaN or [-infinity], [+infinity] being clipped) is cast to the index
    [-2^63], and the increment raises IndexError: no image is written.  This
    is what a degenerate range leads to for a sample that is not clipped. *)
Theorem nonfinite_coordinate_raises (exp : float -> float)
  (symbols : list (float * float)) (i_range q_range : float * float) (W H : Z)
  (sample : float * float) (x y : float) :
  0 < W < 2 ^ 63 -> 0 < H < 2 ^ 63 ->
  In sample symbols ->
  pixel_coord (A := f64 exp x86_64) i_range q_range (W, H) sample = (x, y) ->
  grayscale_keeps (A := f64 exp x86_64) i_range q_range (W, H) sample = true ->
  f64_inf_or_nan x = true \/ f64_inf_or_nan y = true ->
  grayscale (A := f64 exp x86_64) symbols i_range q_range (W, H) = Raised IndexError.
Proof.
  intros HW HH Hin Hxy Hkept Hnf.
  destruct (grayscale_outcome (A := f64 exp x86_64) symbols i_range q_range W H
              ltac:(lia) ltac:(lia)) as [[Hok _] | [_ Hraised]]; [|exact Hraised].
  exfalso. rewrite forallb_forall in Hok.
  specialize (Hok (grayscale_index (A := f64 exp x86_64) i_range q_range (W, H) sample)).
  assert (Hidx : In (grayscale_index (A := f64 exp x86_64) i_range q_range (W, H) sample)
                   (map (grayscale_index (A := f64 exp x86_64) i_range q_range (W, H))
                      (filter (grayscale_keeps (A := f64 exp x86_64) i_range q_range
                                 (W, H)) symbols))).
  { apply in_map, filter_In. split; assumption. }
  specialize (Hok Hidx). revert Hok.
  unfold grayscale_index, index_ok. rewrite Hxy.
  cbn [fst snd ffloor to_int64 f64].
  destruct Hnf as [Hx | Hy].
  - rewrite (f64_to_int64_nonfinite x Hx).
    replace (- W <=? - 2 ^ 63) with false by (symmetry; apply Z.leb_gt; lia).
    discriminate.
  - rewrite (f64_to_int64_nonfinite y Hy).
    replace (- H <=? - 2 ^ 63) with false by (symmetry; apply Z.leb_gt; lia).
    rewrite andb_false_r. discriminate.
Qed.

Lemma nonfinite_coordinate_raises_witness :
  grayscale (A := numpy) [(3, 3); (-3, 3)]%float (1, 1)%float (-7, 7)%float (2, 2)
  = Raised IndexError.
Proof.
  apply (nonfinite_coordinate_raises exp_table [(3, 3); (-3, 3)]%float
           (1, 1)%float (-7, 7)%float 2 2 (-3, 3)%float
           0x1.2492492492492p-1%float neg_infinity);
    try lia.
  - right. left. reflexivity.
  - vm_compute. reflexivity.
  - vm_compute. reflexivity.
  - right. vm_compute. reflexivity.
Defined.
